(** * The compose GUI of spatial-search: schema, form tree and serializer

    A shallow embedding of [compose/main.js]: the form builder
    ([createItemsRecursively]), the serializer that reads the live form back
    into a configuration object ([allInputsToConfigObject]), the schema
    loader ([loadUIConfig]) and the compose request ([compose]).

    Modelling conventions.
    - JavaScript values are the inductive [jsval].  Numbers are restricted to
      the safe integers, carried as [Z]; an array hole is [VUndefined].
    - An object is an association list in insertion order, which is the order
      of [Object.keys] and of [JSON.stringify] as long as no key is an array
      index; [index_like] keys are refused.
    - The DOM is a finite tree; [parentElement] and [previousSibling] are read
      off the chain of ancestors that the document-order traversal carries.
    - A run that leaves this fragment (a thrown TypeError, a read of an
      inherited [Object.prototype] member, a number that is not a safe
      integer) is [None]; nothing is claimed about it. *)

From Stdlib Require Import ZArith Ascii DecimalString DecimalPos DecimalZ.
From stdpp Require Import base option list strings gmap.

Local Open Scope Z_scope.

(** ** JavaScript values *)

Unset Elimination Schemes.
Inductive jsval :=
| VUndefined
| VNull
| VBool (b : bool)
| VNum (z : Z)
| VStr (s : string)
| VArr (l : list jsval)
| VObj (fs : list (string * jsval)).
Set Elimination Schemes.

(** Induction over a value, with the hypothesis available for every element
    of an array and every property of an object. *)
Definition jsval_ind (P : jsval → Prop)
    (Hundef : P VUndefined) (Hnull : P VNull)
    (Hbool : ∀ b, P (VBool b)) (Hnum : ∀ z, P (VNum z))
    (Hstr : ∀ s, P (VStr s))
    (Harr : ∀ l, Forall P l → P (VArr l))
    (Hobj : ∀ fs, Forall (λ kv, P kv.2) fs → P (VObj fs))
  : ∀ v, P v :=
  fix go (v : jsval) : P v :=
    match v with
    | VUndefined => Hundef
    | VNull => Hnull
    | VBool b => Hbool b
    | VNum z => Hnum z
    | VStr s => Hstr s
    | VArr l =>
        Harr l ((fix elems (l : list jsval) : Forall P l :=
                   match l with
                   | [] => List.Forall_nil _
                   | x :: l' => List.Forall_cons _ x l' (go x) (elems l')
                   end) l)
    | VObj fs =>
        Hobj fs ((fix props (fs : list (string * jsval))
                    : Forall (λ kv, P kv.2) fs :=
                    match fs with
                    | [] => List.Forall_nil _
                    | kv :: fs' => List.Forall_cons _ kv fs' (go kv.2) (props fs')
                    end) fs)
    end.

(** Truthiness, as tested by [if (x)], [!x] and [x || y]. *)
Definition truthy (v : jsval) : bool :=
  match v with
  | VUndefined | VNull => false
  | VBool b => b
  | VNum z => negb (z =? 0)
  | VStr s => negb (String.eqb s "")
  | VArr _ | VObj _ => true
  end.

(** [a || b] *)
Definition js_or (a b : jsval) : jsval := if truthy a then a else b.


(** [typeof x == "string" || typeof x == "number"] *)
Definition is_small (x : jsval) : bool :=
  match x with VStr _ | VNum _ => true | _ => false end.

(** Numbers that a double holds exactly and prints digit by digit. *)
Definition safe_integer (z : Z) : bool :=
  (Z.abs z <=? 9007199254740991).

Definition digits_of (z : Z) : string := NilZero.string_of_int (Z.to_int z).

Definition join (sep : string) (l : list string) : string := String.concat sep l.

(** [String(x)], the conversion applied when a value is assigned to an
    element's [value] or concatenated to a string. *)
Fixpoint ToString (v : jsval) : option string :=
  match v with
  | VUndefined => Some "undefined"
  | VNull => Some "null"
  | VBool true => Some "true"
  | VBool false => Some "false"
  | VNum z => if safe_integer z then Some (digits_of z) else None
  | VStr s => Some s
  | VArr l =>
      join "," <$>
        (fix elems (l : list jsval) : option (list string) :=
           match l with
           | [] => Some []
           | x :: l' =>
               s ← match x with
                   | VUndefined | VNull => Some ""
                   | _ => ToString x
                   end;
               (s ::.) <$> elems l'
           end) l
  | VObj _ => Some "[object Object]"
  end.

(** [Number(s)] on the strings a number input can hold: the empty string is
    0, an integer numeral is its value. *)
Definition Number (s : string) : option Z :=
  if String.eqb s "" then Some 0
  else z ← Z.of_int <$> NilZero.int_of_string s;
       if safe_integer z then Some z else None.

(** ** Property names *)

(** Names that every object inherits from [Object.prototype]. *)
Definition reserved (k : string) : bool :=
  bool_decide (k ∈ ["constructor"; "__proto__"; "hasOwnProperty";
    "isPrototypeOf"; "propertyIsEnumerable"; "toLocaleString"; "toString";
    "valueOf"; "__defineGetter__"; "__defineSetter__"; "__lookupGetter__";
    "__lookupSetter__"]).

Definition is_digit (c : ascii) : bool :=
  let n := nat_of_ascii c in (48 <=? n)%nat && (n <=? 57)%nat.

Fixpoint all_chars (p : ascii → bool) (s : string) : bool :=
  match s with
  | EmptyString => true
  | String c s' => p c && all_chars p s'
  end.

(** Keys made of digits only: among them are the array indices, which
    [Object.keys] lists first. *)
Definition index_like (k : string) : bool :=
  negb (String.eqb k "") && all_chars is_digit k.

Definition ordinary (k : string) : bool :=
  negb (reserved k) && negb (index_like k).

(** Own property lookup. *)
Fixpoint own (fs : list (string * jsval)) (k : string) : option jsval :=
  match fs with
  | [] => None
  | (k', v) :: fs' => if String.eqb k' k then Some v else own fs' k
  end.

(** [o[k]] on a plain object. *)
Definition get_prop (fs : list (string * jsval)) (k : string) : option jsval :=
  match own fs k with
  | Some v => Some v
  | None => if reserved k then None else Some VUndefined
  end.

(** [data?.[k]] *)
Definition get_opt (data : jsval) (k : string) : option jsval :=
  match data with
  | VUndefined | VNull => Some VUndefined
  | VObj fs => get_prop fs k
  | _ => None
  end.

Fixpoint replace_prop (fs : list (string * jsval)) (k : string) (v : jsval)
  : list (string * jsval) :=
  match fs with
  | [] => [(k, v)]
  | (k', v') :: fs' =>
      if String.eqb k' k then (k', v) :: fs' else (k', v') :: replace_prop fs' k v
  end.

(** [o[k] = v] on a plain object: an existing property keeps its place, a new
    one goes last. *)
Definition set_prop (fs : list (string * jsval)) (k : string) (v : jsval)
  : option (list (string * jsval)) :=
  if ordinary k then Some (replace_prop fs k v) else None.

(** [a[i]] on an array. *)
Definition get_index (l : list jsval) (i : nat) : jsval :=
  default VUndefined (l !! i).

(** [a[i] = v] on an array; writing past the end leaves holes. *)
Definition set_index (l : list jsval) (i : nat) (v : jsval) : list jsval :=
  if decide (i < length l)%nat then <[i := v]> l
  else l ++ replicate (i - length l) VUndefined ++ [v].

(** ** The DOM *)

Inductive tag :=
| DETAILS | DIV | SUMMARY | B | EM | OL | LI | BUTTON | SELECT | OPTION | INPUT.

Global Instance tag_eq_dec : EqDecision tag.
Proof. solve_decision. Defined.

(** An entry of the [path] argument of the builder: an element created for a
    key, or the running number of a list entry. *)
Inductive path_entry :=
| PEl (key : option string)
| PIdx (i : nat).

(** What a click on a button runs.  [AddEntry] is the closure
    [() => addListEntry(defaultData)] with the variables it captured. *)
Inductive handler :=
| AddEntry (path : list path_entry) (item : jsval) (small : bool)
    (defaultData : jsval) (i : nat)
| RemoveEntry
| ShowPreview.

Record element := {
  tagName : tag;
  classList : list string;
  dataset_key : option string;
  type : string;
  value : string;
  selected : bool;
  open : bool;
  min : string;
  onclick : option handler }.

Unset Elimination Schemes.
Inductive node :=
| Text (s : string)
| Elem (e : element) (children : list node).
Set Elimination Schemes.

Definition node_ind (P : node → Prop)
    (Htext : ∀ s, P (Text s))
    (Helem : ∀ e ch, Forall P ch → P (Elem e ch))
  : ∀ n, P n :=
  fix go (n : node) : P n :=
    match n with
    | Text s => Htext s
    | Elem e ch =>
        Helem e ch ((fix each (ch : list node) : Forall P ch :=
                       match ch with
                       | [] => List.Forall_nil _
                       | c :: ch' => List.Forall_cons _ c ch' (go c) (each ch')
                       end) ch)
    end.

(** [document.createElement] *)
Definition createElement (t : tag) : element :=
  {| tagName := t; classList := []; dataset_key := None;
     type := if decide (t = INPUT) then "text" else "";
     value := ""; selected := false; open := false; min := "";
     onclick := None |}.

Definition add_class (c : string) (e : element) : element :=
  {| tagName := tagName e; classList := classList e ++ [c];
     dataset_key := dataset_key e; type := type e; value := value e;
     selected := selected e; open := open e; min := min e;
     onclick := onclick e |}.

Definition set_key (k : string) (e : element) : element :=
  {| tagName := tagName e; classList := classList e;
     dataset_key := Some k; type := type e; value := value e;
     selected := selected e; open := open e; min := min e;
     onclick := onclick e |}.

Definition set_type (t : string) (e : element) : element :=
  {| tagName := tagName e; classList := classList e;
     dataset_key := dataset_key e; type := t; value := value e;
     selected := selected e; open := open e; min := min e;
     onclick := onclick e |}.

Definition set_value (v : string) (e : element) : element :=
  {| tagName := tagName e; classList := classList e;
     dataset_key := dataset_key e; type := type e; value := v;
     selected := selected e; open := open e; min := min e;
     onclick := onclick e |}.

Definition set_selected (b : bool) (e : element) : element :=
  {| tagName := tagName e; classList := classList e;
     dataset_key := dataset_key e; type := type e; value := value e;
     selected := b; open := open e; min := min e;
     onclick := onclick e |}.

Definition set_open (b : bool) (e : element) : element :=
  {| tagName := tagName e; classList := classList e;
     dataset_key := dataset_key e; type := type e; value := value e;
     selected := selected e; open := b; min := min e;
     onclick := onclick e |}.

Definition set_min (m : string) (e : element) : element :=
  {| tagName := tagName e; classList := classList e;
     dataset_key := dataset_key e; type := type e; value := value e;
     selected := selected e; open := open e; min := m;
     onclick := onclick e |}.

Definition set_onclick (h : handler) (e : element) : element :=
  {| tagName := tagName e; classList := classList e;
     dataset_key := dataset_key e; type := type e; value := value e;
     selected := selected e; open := open e; min := min e;
     onclick := Some h |}.

(** The text child that [innerText = s] or markup leaves behind. *)
Definition text (s : string) : list node :=
  if String.eqb s "" then [] else [Text s].

(** [parent.appendChild(child)] and [parent.append(child)] *)
Definition appendChild (parent child : node) : node :=
  match parent with
  | Elem e ch => Elem e (ch ++ [child])
  | Text s => Text s
  end.

Definition on_element (f : element → element) (n : node) : node :=
  match n with
  | Elem e ch => Elem (f e) ch
  | Text s => Text s
  end.

(** [el.dataset.key] *)
Definition key_of (n : node) : option string :=
  match n with
  | Elem e _ => dataset_key e
  | Text _ => None
  end.

(** [el.innerText] of an element that holds text only, and its setter. *)
Definition innerText (n : node) : string :=
  match n with
  | Elem _ ch =>
      String.concat "" ((λ c, match c with Text s => s | Elem _ _ => "" end) <$> ch)
  | Text s => s
  end.

Definition set_innerText (s : string) (n : node) : node :=
  match n with
  | Elem e _ => Elem e (text s)
  | Text _ => Text s
  end.

(** *** Select elements

    Inserting an option into a select without [multiple] runs the
    selectedness setting algorithm of the HTML standard: with no option
    selected the first one becomes selected, with several only the last one
    stays selected. *)

Definition is_selected (n : node) : bool :=
  match n with Elem e _ => selected e | Text _ => false end.

Fixpoint last_selected (i : nat) (opts : list node) : option nat :=
  match opts with
  | [] => None
  | o :: opts' =>
      match last_selected (S i) opts' with
      | Some j => Some j
      | None => if is_selected o then Some i else None
      end
  end.

Definition selectedness_setting (opts : list node) : list node :=
  let keep := default 0%nat (last_selected 0 opts) in
  imap (λ i, on_element (set_selected (bool_decide (i = keep)))) opts.

Definition select_appendChild (sel o_el : node) : node :=
  match sel with
  | Elem e ch => Elem e (selectedness_setting (ch ++ [o_el]))
  | Text s => Text s
  end.

(** [select.value]: the value of the first selected option, else empty. *)
Fixpoint select_value (opts : list node) : string :=
  match opts with
  | [] => ""
  | Elem e _ :: opts' => if selected e then value e else select_value opts'
  | Text _ :: opts' => select_value opts'
  end.

(** The value sanitization of a text input strips line breaks. *)
Fixpoint strip_newlines (s : string) : string :=
  match s with
  | EmptyString => EmptyString
  | String c s' =>
      if bool_decide (c = "010"%char ∨ c = "013"%char) then strip_newlines s'
      else String c (strip_newlines s')
  end.

Definition float_char (c : ascii) : bool :=
  is_digit c || bool_decide (c ∈ ["."; "e"; "E"; "+"; "-"]%char).

(** The value sanitization of a number input keeps a valid floating-point
    numeral and replaces anything else by the empty string.  Numerals of
    safe integers are decided here; a string that could be another numeral
    is left undecided. *)
Definition sanitize_number (s : string) : option string :=
  match NilZero.int_of_string s with
  | Some d => if safe_integer (Z.of_int d) then Some s else None
  | None =>
      if negb (String.eqb s "") && all_chars float_char s then None
      else Some ""
  end.

(** [el.value = v] on an input element. *)
Definition assign_value (v : jsval) (e : element) : option element :=
  s ← ToString v;
  if String.eqb (type e) "number" then
    s' ← sanitize_number s; Some (set_value s' e)
  else Some (set_value (strip_newlines s) e).

(** ** The schema documents *)

(** The four documents of the form schema, held in the globals of the same
    names: [structure] is the recursive schema, [descriptions] maps a path
    string to a name and a long description, [selects] maps it to the options
    (value and description) and the default option of a select, [defaults]
    maps it to a default value. *)
Record globals := {
  structure : jsval;
  descriptions : gmap string (string * string);
  selects : gmap string (list (string * string) * option string);
  defaults : gmap string jsval }.

Definition set_selects (s : gmap string (list (string * string) * option string))
    (g : globals) : globals :=
  {| structure := structure g; descriptions := descriptions g;
     selects := s; defaults := defaults g |}.

(** [x?.dataset?.key || "_"] *)
Definition path_segment (x : path_entry) : string :=
  match x with
  | PEl (Some k) => if String.eqb k "" then "_" else k
  | PEl None => "_"
  | PIdx _ => "_"
  end.

Definition pathToString (path : list path_entry) (k : option string) : string :=
  let pinterm := path_segment <$> path in
  let pinterm :=
    match k with
    | Some k => if String.eqb k "" then pinterm else pinterm ++ [k]
    | None => pinterm
    end in
  join ":" pinterm.

(** [descriptions?.[pstr] || [pstr, "?"]] *)
Definition desc (g : globals) (path : list path_entry) (k : option string)
  : string * string :=
  let pstr := pathToString path k in
  default (pstr, "?") (descriptions g !! pstr).

(** [defaults?.[pathToString(path)]] *)
Definition default_at (g : globals) (path : list path_entry) : jsval :=
  default VUndefined (defaults g !! pathToString path None).

(** ** Element constructors of the form *)

(** The markup [<tag><b>name</b> <em>description</em></tag>]; names and
    descriptions are plain text. *)
Definition createItem (key : option string) (name description : string)
    (small : bool) : node :=
  let el := createElement (if small then DIV else DETAILS) in
  let el := add_class (if small then "sitem" else "item") el in
  let el :=
    match key with
    | Some k => if String.eqb k "" then el else set_key k el
    | None => el
    end in
  let tag := if small then DIV else SUMMARY in
  Elem el [Elem (createElement tag)
             [Elem (createElement B) (text name); Text " ";
              Elem (createElement EM) (text description)]].

(** [createListItem] marks [el] as a list parent and creates the list and its
    Add button.  The two are filled in by the caller afterwards, through the
    references it holds; [attach_list] puts the finished ones in place. *)
Definition createListItem (el : node) : node * node * node :=
  let el := on_element (add_class "listparent") el in
  let list := Elem (createElement OL) [] in
  let btn := set_innerText "+ Add" (Elem (createElement BUTTON) []) in
  let btn := on_element (add_class "add") btn in
  (el, list, btn).

Definition attach_list (el list btn : node) : node :=
  appendChild (appendChild el list) btn.

(** The body of the loop of [createSelect]: the option element for one
    option and its description. *)
Definition option_node (selected : option string) (od : string * string) : node :=
  let '(option, description) := od in
  let o_el := Elem (createElement OPTION) [] in
  let o_el :=
    if String.eqb description "" then set_innerText option o_el
    else set_innerText (option +:+ " - " +:+ description) o_el in
  let o_el := on_element (set_value option) o_el in
  if bool_decide (Some option = selected)
  then on_element (set_selected true) o_el
  else o_el.

Definition createSelect (options : list (string * string))
    (selected : option string) : node :=
  fold_left (λ el od, select_appendChild el (option_node selected od))
    options (Elem (createElement SELECT) []).

(** [createListElItem] returns the list entry and the item inside it; the
    item is filled in afterwards and [attach_entry] puts it in place. *)
Definition createListElItem (name description : string) : element * node :=
  let el := createElement LI in
  let c := createItem None name description false in
  let del := on_element (add_class "del") (Elem (createElement BUTTON) []) in
  let del := set_innerText "× Delete" del in
  let del := on_element (set_onclick RemoveEntry) del in
  (el, appendChild c del).

Definition attach_entry (el : element) (c : node) : node := Elem el [c].

(** [s.endsWith(suffix)] *)
Definition endsWith (s suffix : string) : bool :=
  let n := String.length s in
  let m := String.length suffix in
  (m <=? n)%nat && String.eqb (String.substring (n - m) m s) suffix.

(** ** The tree builder *)

(** One call of [addListEntry]: [fill] is the recursive call that creates
    the entry's children, with the item schema the closure captured. *)
Definition addListEntry
    (fill : list path_entry → node → jsval → globals → option (node * globals))
    (path : list path_entry) (small : bool) (data_ : jsval)
    (st : node * nat * globals) : option (node * nat * globals) :=
  let '(list, i, g) := st in
  let '(dName, dLong) := desc g path (Some "_") in
  let '(listEntryEl, childDetailsEl) := createListElItem dName dLong in
  let childDetailsEl := on_element (set_open small) childDetailsEl in
  '(childDetailsEl, g) ← fill (path ++ [PIdx i]) childDetailsEl data_ g;
  Some (appendChild list (attach_entry listEntryEl childDetailsEl), S i, g).

(** The values that [for (let k of data)] runs over, [None] when [data] is
    truthy and not iterable. *)
Definition iterate (data : jsval) : option (list jsval) :=
  if truthy data then
    match data with
    | VArr l => Some l
    | VStr s =>
        Some ((λ c, VStr (String c EmptyString)) <$> String.list_ascii_of_string s)
    | _ => None
    end
  else Some [].

Definition is_query_file (opt : string) : bool :=
  endsWith opt ".rq" || endsWith opt ".sparql" || String.eqb opt "".

(** The string case with a list of options: a select. *)
Definition createSelectField (path : list path_entry) (current : node)
    (data : jsval) (options : list (string * string)) (dflt : option string)
    (g : globals) : option (node * globals) :=
  '(val, options, g) ←
    (if truthy data then
       match data with
       | VStr d =>
           if bool_decide (d ∈ options.*1) then Some (Some d, options, g)
           else
             let options := options ++ [(d, "")] in
             Some (Some d, options,
                   set_selects
                     (<[pathToString path None := (options, dflt)]> (selects g)) g)
       | _ => None
       end
     else Some (dflt, options, g));
  let el := createSelect options val in
  let current := appendChild current el in
  let current :=
    if forallb (λ opt, is_query_file opt.1) options then
      let viewEl := set_innerText "Preview" (Elem (createElement BUTTON) []) in
      let viewEl := on_element (add_class "view_btn") viewEl in
      let viewEl := on_element (set_onclick ShowPreview) viewEl in
      appendChild current viewEl
    else current in
  Some (current, g).

(** The string case without options: a free-form text input. *)
Definition createTextField (path : list path_entry) (current : node)
    (data : jsval) (g : globals) : option (node * globals) :=
  let el := set_type "text" (createElement INPUT) in
  el ← (if truthy data then assign_value data el
        else
          let defaultValue := default_at g path in
          if truthy defaultValue then assign_value defaultValue el
          else Some el);
  Some (appendChild current (Elem el []), g).

(** The number case: a numeric input. *)
Definition createNumberField (path : list path_entry) (current : node)
    (data : jsval) (g : globals) : option (node * globals) :=
  let el := set_type "number" (createElement INPUT) in
  let el := set_min "0" el in
  el ← (match data with
        | VNull | VUndefined =>
            assign_value (js_or (default_at g path) (VNum 0)) el
        | _ => assign_value (js_or data (VNum 0)) el
        end);
  Some (appendChild current (Elem el []), g).

Fixpoint createItemsRecursively (path : list path_entry) (current : node)
    (item data : jsval) (g : globals) {struct item} : option (node * globals) :=
  match item with
  | VObj fs =>
      if forallb (λ kv, negb (index_like kv.1)) fs then
        (fix each (fs : list (string * jsval)) (current : node) (g : globals)
           : option (node * globals) :=
           match fs with
           | [] => Some (current, g)
           | (k, item_k) :: fs' =>
               let small := is_small item_k in
               let '(dName, dLong) := desc g path (Some k) in
               let el := createItem (Some k) dName dLong small in
               data_k ← get_opt data k;
               '(el, g) ←
                 createItemsRecursively (path ++ [PEl (key_of el)])
                   el item_k data_k g;
               each fs' (appendChild current el) g
           end) fs current g
      else None
  | VArr items =>
      let '(current, list, add_btn) := createListItem current in
      let item := default VUndefined (head items) in
      let small := is_small item in
      let fill :=
        match items with
        | [] => λ _ c _ g, Some (c, g)
        | item :: _ => λ path c data_ g, createItemsRecursively path c item data_ g
        end in
      let defaultData := default_at g path in
      let '(dName, _) := desc g path (Some "_") in
      let add_btn :=
        if String.eqb dName "" then add_btn
        else set_innerText (innerText add_btn +:+ " " +:+ dName) add_btn in
      entries ← iterate data;
      '(list, i, g) ←
        foldl (λ st k, st ← st; addListEntry fill path small k st)
              (Some (list, 0%nat, g)) entries;
      let add_btn :=
        on_element (set_onclick (AddEntry path item small defaultData i)) add_btn in
      Some (attach_list current list add_btn, g)
  | VStr _ =>
      match selects g !! pathToString path None with
      | Some (options, dflt) => createSelectField path current data options dflt g
      | None => createTextField path current data g
      end
  | VNum _ => createNumberField path current data g
  | _ => Some (current, g)
  end.

(** [loadDocStructureFromObject]: build the form into the empty [#main]. *)
Definition main_element : node := Elem (createElement DIV) [].

Definition loadDocStructureFromObject (data : jsval) (g : globals)
  : option (node * globals) :=
  createItemsRecursively [] main_element (structure g) data g.

(** ** The serializer *)

(** An element together with the number of siblings before it. *)
Definition placed : Type := element * nat.

(** An element matched by the selector, with its child nodes and the chain
    of elements from itself up to the child of [#main] it lies under. *)
Definition hit : Type := list placed * list node.

Definition is_field (e : element) : bool :=
  bool_decide (tagName e = SELECT ∨ tagName e = INPUT).

Definition has_key_attr (e : element) : bool :=
  bool_decide (is_Some (dataset_key e)).

(** The selects and inputs below [n] in document order; [keyed] tells
    whether an ancestor of [n] inside [#main] carries [data-key]. *)
Fixpoint fields_below (keyed : bool) (above : list placed) (idx : nat)
    (n : node) {struct n} : list hit :=
  match n with
  | Text _ => []
  | Elem e ch =>
      let here := (e, idx) :: above in
      (if keyed && is_field e then [(here, ch)] else []) ++
      (fix siblings (ch : list node) (i : nat) : list hit :=
         match ch with
         | [] => []
         | c :: ch' =>
             fields_below (keyed || has_key_attr e) here i c ++ siblings ch' (S i)
         end) ch 0%nat
  end.

(** [$$("#main [data-key] select, #main [data-key] input")] *)
Definition querySelectorAll (main : node) : list hit :=
  match main with
  | Text _ => []
  | Elem _ ch =>
      concat (imap (λ i c, fields_below false [] i c) ch)
  end.

(** [el.value], converted by [Number] for a number input. *)
Definition field_value (e : element) (ch : list node) : option jsval :=
  let val := if decide (tagName e = SELECT) then select_value ch else value e in
  if bool_decide (tagName e = INPUT) && String.eqb (type e) "number"
  then VNum <$> Number val
  else Some (VStr val).

(** One turn of the loop [while (currentEl != main)]. *)
Definition climb (st : list (option nat * string) * option nat) (currentEl : placed)
  : list (option nat * string) * option nat :=
  let '(path, n) := st in
  let '(path, n) :=
    match dataset_key currentEl.1 with
    | Some k => if String.eqb k "" then (path, n) else (path ++ [(n, k)], None)
    | None => (path, n)
    end in
  let n := if decide (tagName currentEl.1 = LI) then Some currentEl.2 else n in
  (path, n).

(** What follows the loop: the path is reversed to parent first, an index
    still pending goes to its last key, and the last key is split off;
    [None] is the TypeError on an empty path. *)
Definition finish (st : list (option nat * string) * option nat)
  : option (list (option nat * string) * (option nat * string)) :=
  let '(path, n) := st in
  let path := reverse path in
  path ←
    match n with
    | Some n' =>
        match reverse path with
        | (_, k) :: before => Some (reverse before ++ [(Some n', k)])
        | [] => None
        end
    | None => Some path
    end;
  match reverse path with
  | last :: before => Some (reverse before, last)
  | [] => None
  end.

(** The path of keys of a field, each key with the list index found below
    it. *)
Definition path_of (chain : list placed)
  : option (list (option nat * string) * (option nat * string)) :=
  finish (foldl climb ([], None) chain).

(** Going down the output object along [path] and storing [val] at the
    end: the in-place writes of the source, as a functional update of the
    value [currentRes] stands for. *)
Fixpoint store (path : list (option nat * string)) (last : option nat * string)
    (val : jsval) (currentRes : jsval) : option jsval :=
  match currentRes with
  | VObj fs =>
      match path with
      | (Some pindex, psegment) :: path' =>
          at_segment ← get_prop fs psegment;
          match (if truthy at_segment then at_segment else VArr []) with
          | VArr l =>
              let entry := get_index l pindex in
              let entry := if truthy entry then entry else VObj [] in
              entry ← store path' last val entry;
              VObj <$> set_prop fs psegment (VArr (set_index l pindex entry))
          | _ => None
          end
      | (None, psegment) :: path' =>
          at_segment ← get_prop fs psegment;
          let sub := if truthy at_segment then at_segment else VObj [] in
          sub ← store path' last val sub;
          VObj <$> set_prop fs psegment sub
      | [] =>
          match last with
          | (None, last) => VObj <$> set_prop fs last (js_or val VNull)
          | (Some pindex, last) =>
              at_last ← get_prop fs last;
              match (if truthy at_last then at_last else VArr []) with
              | VArr l =>
                  VObj <$> set_prop fs last (VArr (set_index l pindex (js_or val VNull)))
              | _ => None
              end
          end
      end
  | _ => None
  end.

(** The body of the loop over the matched elements. *)
Definition store_field (res : option jsval) (h : hit) : option jsval :=
  res ← res;
  match h.1 with
  | (el, _) :: _ =>
      val ← field_value el h.2;
      '(path, last) ← path_of h.1;
      store path last val res
  | [] => None
  end.

Definition allInputsToConfigObject (main : node) : option jsval :=
  foldl store_field (Some (VObj [])) (querySelectorAll main).

(** ** Requests

    An asynchronous function is a tree of fetches: each [Fetch] is one call
    of [fetch], continued with whatever the network answers. *)

Inductive request :=
| GET (url : string)
| POST (url : string) (headers : list (string * string)) (body : string).

(** A fetch resolves with a response, of any status, or rejects. *)
Inductive outcome :=
| Responded (status : Z) (body : string)
| Rejected (error : string).

Inductive io (A : Type) : Type :=
| Ret (a : A)
| Throw
| Fetch (r : request) (k : outcome → io A).
Global Arguments Ret {A} a.
Global Arguments Throw {A}.
Global Arguments Fetch {A} r k.

Fixpoint io_bind {A B} (m : io A) (f : A → io B) : io B :=
  match m with
  | Ret a => f a
  | Throw => Throw
  | Fetch r k => Fetch r (λ o, io_bind (k o) f)
  end.

Notation "x ←await m ; k" := (io_bind m (λ x, k))
  (at level 20, m at level 100, k at level 200, right associativity).
Notation "' pat ←await m ; k" := (io_bind m (λ x, match x with pat => k end))
  (at level 20, pat pattern, m at level 100, k at level 200,
   right associativity).

(** Running against a network: the requests sent, in order, and the result
    unless an exception ended the run. *)
Fixpoint run {A} (net : request → outcome) (m : io A) : list request * option A :=
  match m with
  | Ret a => ([], Some a)
  | Throw => ([], None)
  | Fetch r k => let '(sent, a) := run net (k (net r)) in (r :: sent, a)
  end.

Definition lift {A} (o : option A) : io A :=
  match o with Some a => Ret a | None => Throw end.

(** ** The page *)

(** The two output items and what they show; a download link's [href] is
    modelled by the content of its blob. *)
Record outputs := {
  json_pre_innerText : string;
  json_dl_href : string;
  json_dl_download : string;
  json_dl_innerText : string;
  json_dl_btn_display : string;
  out_sparql_open : bool;
  rq_pre_innerText : string;
  rq_pre_error : bool;
  rq_dl_btn_display : string;
  rq_dl_href : string;
  rq_dl_download : string;
  rq_dl_innerText : string }.

Record page := {
  docs : globals;
  all_configs : list (string * string);
  default_config_name : string;
  current_config : jsval;
  main : node;
  i_inp_value : string;
  out : outputs }.

(** [createOutputItems] *)
Definition createOutputItems : outputs :=
  {| json_pre_innerText := "Please click 'Compose Query' first.";
     json_dl_href := "blob:"; json_dl_download := "";
     json_dl_innerText := "Download"; json_dl_btn_display := "none";
     out_sparql_open := false;
     rq_pre_innerText := "Please click 'Compose Query' first.";
     rq_pre_error := false; rq_dl_btn_display := "none";
     rq_dl_href := "blob:"; rq_dl_download := "";
     rq_dl_innerText := "Download" |}.

(** [s.replace(pattern, replacement)] for a string pattern: the first
    occurrence only. *)
Fixpoint replace (pattern replacement s : string) : string :=
  if String.prefix pattern s then
    replacement +:+
      String.substring (String.length pattern)
        (String.length s - String.length pattern) s
  else
    match s with
    | EmptyString => EmptyString
    | String c s' => String c (replace pattern replacement s')
    end.

(** ** Typed views of the fetched documents *)

Definition as_pair (v : jsval) : option (string * string) :=
  match v with
  | VArr (VStr a :: VStr b :: _) => Some (a, b)
  | VArr [VStr a] => Some (a, "")
  | _ => None
  end.

Definition as_pairs (v : jsval) : option (list (string * string)) :=
  match v with
  | VArr l => mapM as_pair l
  | _ => None
  end.

Definition as_descriptions (v : jsval) : option (gmap string (string * string)) :=
  match v with
  | VObj fs => list_to_map <$> mapM (λ kv, (kv.1 ,.) <$> as_pair kv.2) fs
  | _ => None
  end.

Definition as_select (v : jsval) : option (list (string * string) * option string) :=
  match v with
  | VArr (options :: rest) =>
      options ← as_pairs options;
      Some (options, match rest with VStr d :: _ => Some d | _ => None end)
  | _ => None
  end.

Definition as_selects (v : jsval)
  : option (gmap string (list (string * string) * option string)) :=
  match v with
  | VObj fs => list_to_map <$> mapM (λ kv, (kv.1 ,.) <$> as_select kv.2) fs
  | _ => None
  end.

Definition as_defaults (v : jsval) : option (gmap string jsval) :=
  match v with
  | VObj fs => Some (list_to_map fs)
  | _ => None
  end.

Section Platform.

(** [JSON.parse] and [JSON.stringify(x, null, 2)] belong to the platform. *)
Variable JSON_parse : string → option jsval.
Variable JSON_stringify : jsval → string.

(** [_json]: [url => fetch(url).then(r => r.json())] *)
Definition _json (url : string) : io jsval :=
  Fetch (GET url) (λ r,
    match r with
    | Responded _ body => lift (JSON_parse body)
    | Rejected _ => Throw
    end).

Definition fetch_text (url : string) : io string :=
  Fetch (GET url) (λ r,
    match r with
    | Responded _ body => Ret body
    | Rejected _ => Throw
    end).

(** [loadUIConfig]; the documents are given their types once all of them
    have arrived. *)
Definition loadUIConfig (p : page) : io page :=
  structure_ ←await _json "/structure.json";
  descriptions_ ←await _json "/descriptions.json";
  selects_ ←await _json "/selects.json";
  defaults_ ←await _json "/defaults.json";
  all_configs_ ←await _json "/configs.json";
  default_config_name_ ←await fetch_text "/default_input";
  current_config_ ←await _json ("/" +:+ default_config_name_);
  lift (
    descriptions_ ← as_descriptions descriptions_;
    selects_ ← as_selects selects_;
    defaults_ ← as_defaults defaults_;
    all_configs_ ← as_pairs all_configs_;
    Some {| docs := {| structure := structure_; descriptions := descriptions_;
                       selects := selects_; defaults := defaults_ |};
            all_configs := all_configs_;
            default_config_name := default_config_name_;
            current_config := current_config_;
            main := main p; i_inp_value := i_inp_value p; out := out p |}).

(** [generateConfig]: serialize the form and show the JSON. *)
Definition generateConfig (p : page) : option (string * page) :=
  result ← allInputsToConfigObject (main p);
  let res_json := JSON_stringify result in
  let json_fn :=
    if String.eqb (i_inp_value p) "blank_compose.json" then "compose_spatial.json"
    else i_inp_value p in
  let o := out p in
  let o :=
    {| json_pre_innerText := res_json;
       json_dl_href := res_json;
       json_dl_download := json_fn;
       json_dl_innerText := "Download " +:+ json_fn;
       json_dl_btn_display := "";
       out_sparql_open := out_sparql_open o;
       rq_pre_innerText := rq_pre_innerText o;
       rq_pre_error := rq_pre_error o;
       rq_dl_btn_display := rq_dl_btn_display o;
       rq_dl_href := rq_dl_href o;
       rq_dl_download := rq_dl_download o;
       rq_dl_innerText := rq_dl_innerText o |} in
  Some (res_json,
        {| docs := docs p; all_configs := all_configs p;
           default_config_name := default_config_name p;
           current_config := current_config p;
           main := main p; i_inp_value := i_inp_value p; out := o |}).

(** [composeQueryRequest]: the response as [[status, text]], or, through
    [catch(_id)], the error the fetch rejected with. *)
Definition compose_request (res_json : string) : request :=
  POST "/compose"
    [("Accept", "application/sparql-query");
     ("Content-Type", "application/json")] res_json.

Definition composeQueryRequest (res_json : string) : io outcome :=
  Fetch (compose_request res_json) (λ r, Ret r).

(** [res?.[0]] and [res?.[1]], as [String] shows them. *)
Definition status_of (res : outcome) : option Z :=
  match res with Responded status _ => Some status | Rejected _ => None end.

Definition text_of (res : outcome) : string :=
  match res with Responded _ text => text | Rejected _ => "undefined" end.

Definition set_rq (error : bool) (display : string) (o : outputs) : outputs :=
  {| json_pre_innerText := json_pre_innerText o;
     json_dl_href := json_dl_href o;
     json_dl_download := json_dl_download o;
     json_dl_innerText := json_dl_innerText o;
     json_dl_btn_display := json_dl_btn_display o;
     out_sparql_open := out_sparql_open o;
     rq_pre_innerText := rq_pre_innerText o;
     rq_pre_error := error;
     rq_dl_btn_display := display;
     rq_dl_href := rq_dl_href o;
     rq_dl_download := rq_dl_download o;
     rq_dl_innerText := rq_dl_innerText o |}.

Definition with_out (o : outputs) (p : page) : page :=
  {| docs := docs p; all_configs := all_configs p;
     default_config_name := default_config_name p;
     current_config := current_config p;
     main := main p; i_inp_value := i_inp_value p; out := o |}.

(** [compose], the click handler of the Compose button. *)
Definition compose (p : page) : io page :=
  let p := with_out (set_rq false "" (out p)) p in
  '(res_json, p) ←await lift (generateConfig p);
  res ←await composeQueryRequest res_json;
  let ok := bool_decide (status_of res = Some 200) in
  let s := text_of res in
  let o := out p in
  let o := if ok then o else set_rq true "none" o in
  let rq_fn :=
    if String.eqb (i_inp_value p) "blank_compose.json" then "compose_spatial.rq"
    else replace ".json" ".rq" (replace "_compose" "" (i_inp_value p)) in
  let o :=
    {| json_pre_innerText := json_pre_innerText o;
       json_dl_href := json_dl_href o;
       json_dl_download := json_dl_download o;
       json_dl_innerText := json_dl_innerText o;
       json_dl_btn_display := json_dl_btn_display o;
       out_sparql_open := true;
       rq_pre_innerText := s;
       rq_pre_error := rq_pre_error o;
       rq_dl_btn_display := rq_dl_btn_display o;
       rq_dl_href := s;
       rq_dl_download := rq_fn;
       rq_dl_innerText := "Download " +:+ rq_fn |} in
  Ret (with_out o p).

End Platform.

(** ** Reference data for the statements *)

(** The requests of a complete [loadUIConfig]: the four schema documents,
    then the list of configurations, the name of the default one, and that
    configuration. *)
Definition loader_requests (name : string) : list request :=
  [GET "/structure.json"; GET "/descriptions.json"; GET "/selects.json";
   GET "/defaults.json"; GET "/configs.json"; GET "/default_input";
   GET ("/" +:+ name)].

(** The name the network gives for the default configuration. *)
Definition served_name (net : request → outcome) : string :=
  match net (GET "/default_input") with
  | Responded _ body => body
  | Rejected _ => ""
  end.

(** A network and a parser for the examples: every document is an empty
    object, except the list of configurations, which is an empty array. *)
Definition toy_net (r : request) : outcome :=
  match r with
  | GET url =>
      if String.eqb url "/configs.json" then Responded 200 "[]"
      else if String.eqb url "/default_input" then Responded 200 "blank_compose.json"
      else Responded 200 "{}"
  | POST _ _ body => Responded 200 ("SELECT * WHERE { } # " +:+ body)
  end.

Definition toy_parse (s : string) : option jsval :=
  if String.eqb s "[]" then Some (VArr [])
  else if String.eqb s "{}" then Some (VObj [])
  else None.

Definition blank_page : page :=
  {| docs := {| structure := VObj []; descriptions := ∅; selects := ∅;
                defaults := ∅ |};
     all_configs := []; default_config_name := "blank_compose.json";
     current_config := VObj []; main := main_element;
     i_inp_value := "blank_compose.json"; out := createOutputItems |}.


(** A stand-in for [JSON.stringify] in the examples. *)
Definition toy_stringify (v : jsval) : string :=
  match v with
  | VObj [] => "{}"
  | _ => "{...}"
  end.

(** A network that is down. *)
Definition dead_net (r : request) : outcome := Rejected "Failed to fetch".

(** A network whose compose endpoint refuses the configuration. *)
Definition refusing_net (r : request) : outcome :=
  Responded 400 "Bad configuration".

(** The string a failed request has to report: the text of the response,
    or the error the fetch rejected with. *)
Definition error_string (res : outcome) : string :=
  match res with
  | Responded _ text => text
  | Rejected error => error
  end.

(** ** What the serializer leaves behind *)






(** Documents without descriptions, options or defaults around a schema. *)
Definition bare (schema : jsval) : globals :=
  {| structure := schema; descriptions := ∅; selects := ∅; defaults := ∅ |}.

(** The form built for [data], or the empty form when building fails. *)
Definition form_for (g : globals) (data : jsval) : node :=
  default main_element (fst <$> loadDocStructureFromObject data g).

(** A form with an empty text field and a number field showing 0. *)
Definition two_field_form : node :=
  form_for (bare (VObj [("name", VStr ""); ("count", VNum 0)])) VUndefined.

(** The fields below the children [ch] of an element, the first of which
    has [i0] siblings before it. *)
Definition fields_among (keyed : bool) (above : list placed) (i0 : nat)
    (ch : list node) : list hit :=
  concat (imap (λ i c, fields_below keyed above (i0 + i) c) ch).

(** ** What the serializer looks at

    [skeleton] keeps of a form what the serializer reads: the tree, and of
    each element its tag, its [data-key], its type, its value and whether
    it is selected.  Classes, open state, handlers and text are dropped. *)
Definition bare_element (e : element) : element :=
  {| tagName := tagName e; classList := []; dataset_key := dataset_key e;
     type := type e; value := value e; selected := selected e;
     open := false; min := ""; onclick := None |}.

Fixpoint skeleton (n : node) : node :=
  match n with
  | Text _ => Text ""
  | Elem e ch => Elem (bare_element e) (skeleton <$> ch)
  end.

Definition skeleton_hit (h : hit) : hit :=
  ((λ p : placed, (bare_element p.1, p.2)) <$> h.1, skeleton <$> h.2).

(** The form of [two_field_form] with every item opened and restyled. *)
Fixpoint restyled (n : node) : node :=
  match n with
  | Text s => Text s
  | Elem e ch => Elem (set_open true (add_class "wide" e)) (restyled <$> ch)
  end.

(** ** The content of a form

    The content of a form is the value made of the raw values of its
    fields, arranged as the schema arranges them: an object for the keyed
    items of an object node, an array for the entries of a list. *)




Definition is_array (v : jsval) : bool :=
  match v with VArr _ => true | _ => false end.

Definition key_ok (k : string) : bool :=
  negb (String.eqb k "") && ordinary k.










(** ** Forms that follow a schema *)

(** A node without fields and lists, whose buttons, if any, only show a
    preview. *)
Fixpoint inert (n : node) : bool :=
  match n with
  | Text _ => true
  | Elem e ch =>
      negb (is_field e || bool_decide (tagName e = OL)) &&
      match onclick e with
      | None | Some ShowPreview => true
      | Some _ => false
      end &&
      forallb inert ch
  end.

(** An element as [createItem] makes it, with the key [k] or with none. *)
Definition item_element (k : option string) (e : element) : Prop :=
  (tagName e = DIV ∨ tagName e = DETAILS) ∧ dataset_key e = k ∧ onclick e = None.

(** A list entry as [addListEntry] makes it: the entry, the item in it with
    its heading and Delete button, and below them the nodes [inner]. *)
Definition entry_node (li : node) (inner : list node) : Prop :=
  ∃ e_li e_c hd e_del txt,
    li = Elem e_li [Elem e_c (hd :: Elem e_del txt :: inner)] ∧
    tagName e_li = LI ∧ dataset_key e_li = None ∧ onclick e_li = None ∧
    item_element None e_c ∧ inert hd = true ∧
    tagName e_del = BUTTON ∧ onclick e_del = Some RemoveEntry ∧
    forallb inert txt = true.

(** [shaped s ch c]: the nodes [ch] are what the builder puts below an
    element for the schema node [s], with any number of entries in each
    list and any values in the fields, and [c] is their content. *)
Fixpoint shaped (s : jsval) (ch : list node) (c : jsval) {struct s} : Prop :=
  match s with
  | VStr _ | VNum _ =>
      ∃ e opts extras,
        ch = Elem e opts :: extras ∧ is_field e = true ∧
        dataset_key e = None ∧ onclick e = None ∧
        forallb inert opts = true ∧ forallb inert extras = true ∧
        field_value e opts = Some c
  | VObj fs =>
      ∃ cs, c = VObj cs ∧
      (fix fields (fs : list (string * jsval)) (els : list node)
           (cs : list (string * jsval)) {struct fs} : Prop :=
         match fs, els, cs with
         | [], [], [] => True
         | (k, s_k) :: fs', Elem e (hd :: ch_k) :: els', (k', c_k) :: cs' =>
             k' = k ∧ item_element (Some k) e ∧ inert hd = true ∧
             shaped s_k ch_k c_k ∧ fields fs' els' cs'
         | _, _, _ => False
         end) fs ch cs
  | VArr (item :: _) =>
      ∃ e_ol lis e_btn txt cs path small dd i,
        ch = [Elem e_ol lis; Elem e_btn txt] ∧ c = VArr cs ∧
        tagName e_ol = OL ∧ dataset_key e_ol = None ∧ onclick e_ol = None ∧
        tagName e_btn = BUTTON ∧
        onclick e_btn = Some (AddEntry path item small dd i) ∧
        forallb inert txt = true ∧
        Forall2 (λ li c_i, ∃ inner, entry_node li inner ∧ shaped item inner c_i)
                lis cs
  | _ => False
  end.

(** A schema the builder and the serializer agree on: objects, strings,
    numbers and lists, with usable and distinct keys, and no list whose
    entries are lists themselves. *)
Fixpoint wf_schema (s : jsval) : bool :=
  match s with
  | VStr _ | VNum _ => true
  | VObj fs =>
      forallb key_ok fs.*1 && bool_decide (NoDup fs.*1) &&
      forallb (λ kv, wf_schema kv.2) fs
  | VArr (item :: _) => negb (is_array item) && wf_schema item
  | _ => false
  end.






(** ** Configurations that conform to a schema *)

(** [conforms item data]: [data] has the shape of the schema node [item],
    with the keys of each object in the schema's order, every list and
    object non-empty, every string non-empty and free of line breaks, and
    every number a non-zero safe integer. *)
Fixpoint conforms (item data : jsval) {struct item} : bool :=
  match item, data with
  | VStr _, VStr d =>
      negb (String.eqb d "") && String.eqb (strip_newlines d) d
  | VNum _, VNum z => negb (z =? 0) && safe_integer z
  | VArr (item :: _), VArr ds =>
      negb (bool_decide (ds = [])) && forallb (conforms item) ds
  | VObj fs, VObj ds =>
      negb (bool_decide (fs = [])) &&
      (fix each (fs ds : list (string * jsval)) {struct fs} : bool :=
         match fs, ds with
         | [], [] => true
         | (k, s_k) :: fs', (k', d_k) :: ds' =>
             String.eqb k' k && conforms s_k d_k && each fs' ds'
         | _, _ => false
         end) fs ds
  | _, _ => false
  end.

(** The loop of the object case, from the key of [fs] it has reached. *)
Fixpoint create_fields (path : list path_entry) (fs : list (string * jsval))
    (current : node) (data : jsval) (g : globals) : option (node * globals) :=
  match fs with
  | [] => Some (current, g)
  | (k, item_k) :: fs' =>
      let small := is_small item_k in
      let '(dName, dLong) := desc g path (Some k) in
      let el := createItem (Some k) dName dLong small in
      data_k ← get_opt data k;
      '(el, g) ←
        createItemsRecursively (path ++ [PEl (key_of el)]) el item_k data_k g;
      create_fields path fs' (appendChild current el) data g
  end.

(** What an element keeps of its role when the builder works below it. *)
Definition same_role (e e' : element) : Prop :=
  tagName e' = tagName e ∧ dataset_key e' = dataset_key e ∧
  onclick e' = onclick e.

(** The option that ends up selected: the last one equal to [selected],
    or the first one. *)
Definition chosen (options : list (string * string)) (selected : option string)
  : nat :=
  default 0%nat (last_selected 0 (option_node selected <$> options)).

(** The options of a select once the selectedness setting algorithm has
    left exactly the option at index [k] selected; the first option has
    index [i0]. *)
Definition settled (i0 k : nat) (opts : list node) : list node :=
  imap (λ i, on_element (set_selected (bool_decide ((i0 + i)%nat = k)))) opts.

Definition is_element (n : node) : Prop :=
  match n with Elem _ _ => True | Text _ => False end.

(** An element whose field role is that of a fresh input or select. *)
Definition field_element (e : element) : Prop :=
  is_field e = true ∧ dataset_key e = None ∧ onclick e = None.

(** Key by key, the data of an object conforms to the schema's items. *)
Definition field_conforms (kv kd : string * jsval) : Prop :=
  kd.1 = kv.1 ∧ conforms kv.2 kd.2 = true.

(** The statement proved about one call of the builder. *)
Definition builds_shaped (item : jsval) : Prop :=
  ∀ path e ch data g,
    (∀ cur' g',
       createItemsRecursively path (Elem e ch) item data g = Some (cur', g') →
       ∃ e' new c, cur' = Elem e' (ch ++ new) ∧ same_role e e' ∧
         shaped item new c ∧ (conforms item data = true → c = data)) ∧
    (conforms item data = true →
     is_Some (createItemsRecursively path (Elem e ch) item data g)).

(** The loop of the list case: one [addListEntry] per value. *)
Definition add_entries
    (fill : list path_entry → node → jsval → globals → option (node * globals))
    (path : list path_entry) (small : bool) (entries : list jsval)
    (st : option (node * nat * globals)) : option (node * nat * globals) :=
  foldl (λ st k, st ← st; addListEntry fill path small k st) st entries.

(** A list entry of the form with its content. *)
Definition entry_shaped (item : jsval) (li : node) (c_i : jsval) : Prop :=
  ∃ inner, entry_node li inner ∧ shaped item inner c_i.


(** A schema and a configuration for the examples. *)
Definition sample_schema : jsval :=
  VObj [("name", VStr ""); ("limit", VNum 0);
        ("tags", VArr [VStr ""]);
        ("sources", VArr [VObj [("file", VStr ""); ("depth", VNum 0)]])].

Definition sample_config : jsval :=
  VObj [("name", VStr "stops"); ("limit", VNum 5);
        ("tags", VArr [VStr "bus"; VStr "tram"]);
        ("sources",
         VArr [VObj [("file", VStr "a.rq"); ("depth", VNum 2)];
               VObj [("file", VStr "b.rq"); ("depth", VNum 3)]])].





(** ** The recursion and the loops with a bound *)

(** The result of a run that may make only a bounded number of nested
    calls, or of turns of a loop: [None] when the bound is reached,
    [Some None] for a TypeError. *)
Definition bounded (A : Type) : Type := option (option A).

Definition bounded_bind {A B : Type} (m : bounded A) (k : A → bounded B)
  : bounded B :=
  match m with
  | Some (Some a) => k a
  | Some None => Some None
  | None => None
  end.

Notation "x ←call m ; k" := (bounded_bind m (λ x, k))
  (at level 20, m at level 100, k at level 200, right associativity).
Notation "' pat ←call m ; k" := (bounded_bind m (λ x, match x with pat => k end))
  (at level 20, pat pattern, m at level 100, k at level 200,
   right associativity).

Definition addListEntry_bounded
    (fill : list path_entry → node → jsval → globals → bounded (node * globals))
    (path : list path_entry) (small : bool) (data_ : jsval)
    (st : node * nat * globals) : bounded (node * nat * globals) :=
  let '(list, i, g) := st in
  let '(dName, dLong) := desc g path (Some "_") in
  let '(listEntryEl, childDetailsEl) := createListElItem dName dLong in
  let childDetailsEl := on_element (set_open small) childDetailsEl in
  '(childDetailsEl, g) ←call fill (path ++ [PIdx i]) childDetailsEl data_ g;
  Some (Some (appendChild list (attach_entry listEntryEl childDetailsEl), S i, g)).

(** [createItemsRecursively] as the interpreter runs it, a call inside a
    call, with at most [calls] calls nested in one another.  The item of an
    empty list schema is [undefined], and the call for it is made like any
    other. *)
Fixpoint createItems_bounded (calls : nat) (path : list path_entry)
    (current : node) (item data : jsval) (g : globals) {struct calls}
  : bounded (node * globals) :=
  match calls with
  | O => None
  | S calls =>
      match item with
      | VObj fs =>
          if forallb (λ kv, negb (index_like kv.1)) fs then
            foldl (λ st kv,
                     '(current, g) ←call st;
                     let small := is_small kv.2 in
                     let '(dName, dLong) := desc g path (Some kv.1) in
                     let el := createItem (Some kv.1) dName dLong small in
                     data_k ←call Some (get_opt data kv.1);
                     '(el, g) ←call
                       createItems_bounded calls (path ++ [PEl (key_of el)])
                         el kv.2 data_k g;
                     Some (Some (appendChild current el, g)))
                  (Some (Some (current, g))) fs
          else Some None
      | VArr items =>
          let '(current, list, add_btn) := createListItem current in
          let item := default VUndefined (head items) in
          let small := is_small item in
          let defaultData := default_at g path in
          let '(dName, _) := desc g path (Some "_") in
          let add_btn :=
            if String.eqb dName "" then add_btn
            else set_innerText (innerText add_btn +:+ " " +:+ dName) add_btn in
          entries ←call Some (iterate data);
          '(list, i, g) ←call
            foldl (λ st k,
                     st ←call st;
                     addListEntry_bounded
                       (λ path c data_ g,
                          createItems_bounded calls path c item data_ g)
                       path small k st)
                  (Some (Some (list, 0%nat, g))) entries;
          let add_btn :=
            on_element (set_onclick (AddEntry path item small defaultData i))
              add_btn in
          Some (Some (attach_list current list add_btn, g))
      | VStr _ =>
          Some (match selects g !! pathToString path None with
                | Some (options, dflt) =>
                    createSelectField path current data options dflt g
                | None => createTextField path current data g
                end)
      | VNum _ => Some (createNumberField path current data g)
      | _ => Some (Some (current, g))
      end
  end.

(** The number of schema nodes nested in one another below [item], along
    the nodes the builder looks at: every key of an object, the first item
    of a list. *)
Fixpoint depth (item : jsval) : nat :=
  match item with
  | VObj fs => S (foldr (λ kv, Nat.max (depth kv.2)) 0%nat fs)
  | VArr [] => 1
  | VArr (item :: _) => S (depth item)
  | _ => 0
  end.

(** The place of a matched element: the child indices from [#main] down to
    it. *)
Definition place (h : hit) : list nat := reverse (h.1.*2).

(** The element at the place [pos] below [n], with its chain. *)
Fixpoint element_at (n : node) (above : list placed) (idx : nat)
    (pos : list nat) {struct pos} : option hit :=
  match n with
  | Text _ => None
  | Elem e ch =>
      let here := (e, idx) :: above in
      match pos with
      | [] => Some (here, ch)
      | i :: pos' => c ← ch !! i; element_at c here i pos'
      end
  end.

(** Whether [n] or an element between [n] and the place [pos] below it
    carries the attribute [data-key]. *)
Fixpoint below_key (n : node) (pos : list nat) {struct pos} : bool :=
  match n, pos with
  | Elem e ch, i :: pos' =>
      has_key_attr e ||
      match ch !! i with Some c => below_key c pos' | None => false end
  | _, _ => false
  end.

(** Whether the element of a hit is a select or an input. *)
Definition is_field_hit (h : hit) : bool :=
  match h.1 with
  | (e, _) :: _ => is_field e
  | [] => false
  end.

(** The selector [#main [data-key] select, #main [data-key] input], place
    by place: a select or input at [pos] with an ancestor inside [#main]
    that carries [data-key]. *)
Definition selected_at (main : node) (pos : list nat) : option hit :=
  match main, pos with
  | Elem _ ch, i :: pos' =>
      c ← ch !! i;
      h ← element_at c [] i pos';
      if is_field_hit h && below_key c pos' then Some h else None
  | _, _ => None
  end.

(** The number of nodes of a tree. *)
Fixpoint size (n : node) : nat :=
  match n with
  | Text _ => 1
  | Elem _ ch => S (foldr (λ c, Nat.add (size c)) 0%nat ch)
  end.

(** The loop [while ((child = child.previousSibling) != null) i++], from an
    element with [before] siblings before it, with a bound on its turns. *)
Fixpoint count_previous (turns before i : nat) {struct turns} : option nat :=
  match turns with
  | O => None
  | S turns =>
      match before with
      | O => Some i
      | S before => count_previous turns before (S i)
      end
  end.

(** One turn of [while (currentEl != main)], the inner loop bounded. *)
Definition climb_bounded (turns : nat)
    (st : list (option nat * string) * option nat) (currentEl : placed)
  : option (list (option nat * string) * option nat) :=
  let '(path, n) := st in
  let '(path, n) :=
    match dataset_key currentEl.1 with
    | Some k => if String.eqb k "" then (path, n) else (path ++ [(n, k)], None)
    | None => (path, n)
    end in
  n ← (if decide (tagName currentEl.1 = LI)
       then Some <$> count_previous turns currentEl.2 0
       else Some n);
  Some (path, n).

(** The loop [while (currentEl != main)] over the chain of elements from
    [currentEl] up to the child of [#main], with the bound [turns] on its
    turns and the bound [inner] on those of each inner loop. *)
Fixpoint walk_up (inner turns : nat) (chain : list placed)
    (st : list (option nat * string) * option nat) {struct turns}
  : option (list (option nat * string) * option nat) :=
  match turns with
  | O => None
  | S turns =>
      match chain with
      | [] => Some st
      | currentEl :: up =>
          st ← climb_bounded inner st currentEl;
          walk_up inner turns up st
      end
  end.


(** ** Clicks on the buttons of the lists *)

(** The click handler of the element at the place [pos] below [n]. *)
Fixpoint handler_at (n : node) (pos : list nat) {struct pos} : option handler :=
  match n with
  | Text _ => None
  | Elem e ch =>
      match pos with
      | [] => onclick e
      | i :: pos' => c ← ch !! i; handler_at c pos'
      end
  end.

(** A click on the Add button at index [k] among the children [ch] of its
    parent: [addListEntry(defaultData)], with the list, the path, the item
    and the counter that the closure holds.  The list was appended to the
    parent right before the button and nothing is ever put between the
    two, so it is the sibling before the button; the counter the closure
    has incremented is kept in the handler. *)
Definition click_add (ch : list node) (k : nat) (g : globals)
  : option (list node * globals) :=
  match k with
  | O => None
  | S k' =>
      match ch !! k, ch !! k' with
      | Some (Elem e_btn txt), Some list =>
          match onclick e_btn with
          | Some (AddEntry path item small defaultData i) =>
              '(list, i, g) ←
                addListEntry
                  (λ path c data_ g, createItemsRecursively path c item data_ g)
                  path small defaultData (list, i, g);
              let btn :=
                Elem (set_onclick (AddEntry path item small defaultData i) e_btn)
                  txt in
              Some (<[k := btn]> (<[k' := list]> ch), g)
          | _ => None
          end
      | _, _ => None
      end
  end.

(** A click on the button at the place [pos] below [n].  A Delete button
    removes the list entry it was created with, [el.remove()]: the entry
    holds the item that holds the button, so it is the element two levels
    above the button.  Clicks on anything else than an Add or a Delete
    button are not modelled. *)
Fixpoint click (n : node) (pos : list nat) (g : globals) {struct pos}
  : option (node * globals) :=
  match n, pos with
  | Elem e ch, i :: rest =>
      let inside :=
        c ← ch !! i;
        '(c, g) ← click c rest g;
        Some (Elem e (<[i := c]> ch), g) in
      match rest with
      | [] => '(ch, g) ← click_add ch i g; Some (Elem e ch, g)
      | [_; _] =>
          match handler_at n pos with
          | Some RemoveEntry => Some (Elem e (delete i ch), g)
          | _ => inside
          end
      | _ => inside
      end
  | _, _ => None
  end.

(** The states of the form that a user reaches from the form loaded with
    [data] by clicks on Add and Delete buttons. *)
Inductive reachable (g0 : globals) (data : jsval) : node → globals → Prop :=
| reachable_loaded main g :
    loadDocStructureFromObject data g0 = Some (main, g) →
    reachable g0 data main g
| reachable_click main g pos main' g' :
    reachable g0 data main g →
    click main pos g = Some (main', g') →
    reachable g0 data main' g'.

(** Loading [data] and clicking at the places [poss], one after the
    other. *)
Definition clicks (g0 : globals) (data : jsval) (poss : list (list nat))
  : option (node * globals) :=
  foldl (λ st pos, '(main, g) ← st; click main pos g)
    (loadDocStructureFromObject data g0) poss.




(** A node on which and in which no click does anything. *)
Fixpoint quiet (n : node) : bool :=
  match n with
  | Text _ => true
  | Elem e ch =>
      match onclick e with
      | None | Some ShowPreview => true
      | Some _ => false
      end &&
      forallb quiet ch
  end.

(** A node that is no Add button and in which no click does anything. *)
Definition passive (n : node) : bool :=
  match n with
  | Text _ => true
  | Elem e ch =>
      match onclick e with
      | Some (AddEntry _ _ _ _ _) => false
      | _ => true
      end &&
      forallb quiet ch
  end.

(** Clicks keep the form of a schema node: what they make of the nodes
    for the node [s], wherever these stand, follows [s] again. *)
Definition click_keeps (s : jsval) : Prop :=
  ∀ E pre ch c pos g n' g',
    forallb passive pre = true → shaped s ch c →
    click (Elem E (pre ++ ch)) pos g = Some (n', g') →
    ∃ ch' c', n' = Elem E (pre ++ ch') ∧ shaped s ch' c'.


(** The element at the place [pos] of the form, with its chain and child
    nodes. *)
Definition located (main : node) (pos : list nat) : option hit :=
  match main, pos with
  | Elem _ ch, i :: pos' => c ← ch !! i; element_at c [] i pos'
  | _, _ => None
  end.


(** The sample form after two tags are added, the third tag is deleted, a
    source is added and the first source is deleted. *)
Definition edited_sample : node * globals :=
  default (main_element, bare sample_schema)
    (clicks (bare sample_schema) sample_config
       [[2; 2]; [2; 2]; [2; 1; 2; 0; 1]; [3; 2]; [3; 1; 0; 0; 1]]%nat).


(** Loading [data] into the blank form of [schema] and serializing the
    form. *)
Definition reload (schema data : jsval) : option jsval :=
  '(main, _) ← loadDocStructureFromObject data (bare schema);
  allInputsToConfigObject main.

(** ** The rest of the page *)

(** [toggleAllDetailsElements(open)], on the part of the document below
    [n]: the loop over [$$("details")] sets [open] on every details
    element. *)
Fixpoint toggleAllDetailsElements (open_ : bool) (n : node) : node :=
  match n with
  | Text s => Text s
  | Elem e ch =>
      Elem (if decide (tagName e = DETAILS) then set_open open_ e else e)
           (toggleAllDetailsElements open_ <$> ch)
  end.

(** The node at the place [pos] below [n]. *)
Fixpoint node_at (n : node) (pos : list nat) {struct pos} : option node :=
  match pos with
  | [] => Some n
  | i :: pos' =>
      match n with
      | Elem _ ch => c ← ch !! i; node_at c pos'
      | Text _ => None
      end
  end.

(** [el.value] of a select element. *)
Definition value_of_select (n : node) : string :=
  match n with
  | Elem _ opts => select_value opts
  | Text _ => ""
  end.

Definition with_main (m : node) (p : page) : page :=
  {| docs := docs p; all_configs := all_configs p;
     default_config_name := default_config_name p;
     current_config := current_config p;
     main := m; i_inp_value := i_inp_value p; out := out p |}.

Definition with_docs (g : globals) (p : page) : page :=
  {| docs := g; all_configs := all_configs p;
     default_config_name := default_config_name p;
     current_config := current_config p;
     main := main p; i_inp_value := i_inp_value p; out := out p |}.

Definition with_i_inp_value (v : string) (p : page) : page :=
  {| docs := docs p; all_configs := all_configs p;
     default_config_name := default_config_name p;
     current_config := current_config p;
     main := main p; i_inp_value := v; out := out p |}.

(** [loadDocStructureFromObject(data)] on the page: the form is built into
    [#main] as it stands. *)
Definition load_into (data : jsval) (p : page) : option page :=
  '(m, g) ← createItemsRecursively [] (main p) (structure (docs p)) data (docs p);
  Some (with_docs g (with_main m p)).

(** [createOpenItem]: the select of the configurations, with the default
    configuration chosen if it is listed. *)
Definition createOpenItem (p : page) : page :=
  let i_inp := createSelect (all_configs p) (Some (default_config_name p)) in
  with_i_inp_value (value_of_select i_inp) p.

Section Startup.

Variable JSON_parse : string → option jsval.

(** The [onchange] handler of the select of the configurations, run once
    the user has chosen [name]: the page it leaves, and whether it ran to
    its end.  A fetch that rejects, or a body that is no JSON, ends it
    after its first statement. *)
Definition i_inp_onchange (name : string) (p : page) : io (page * bool) :=
  let p := with_i_inp_value name p in
  let p := with_main (set_innerText "Loading..." (main p)) p in
  Fetch (GET ("/" +:+ name)) (λ r,
    match r with
    | Responded _ body =>
        match JSON_parse body with
        | Some data =>
            let p := with_main (set_innerText "" (main p)) p in
            p ←await lift (load_into data p);
            Ret (with_out createOutputItems p, true)
        | None => Ret (p, false)
        end
    | Rejected _ => Ret (p, false)
    end).

(** The function the script ends with: load the documents, build the form
    of the default configuration, create the select of the configurations
    and the output items. *)
Definition startup (p : page) : io page :=
  p ←await loadUIConfig JSON_parse p;
  p ←await lift (load_into (current_config p) p);
  let p := createOpenItem p in
  Ret (with_out createOutputItems p).

End Startup.

(** [extends g g']: the documents [g'] are the documents [g] with, at most,
    further options at the end of the option lists of [selects]. *)
Definition extends (g g' : globals) : Prop :=
  structure g' = structure g ∧ descriptions g' = descriptions g ∧
  defaults g' = defaults g ∧
  ∀ k,
    match selects g !! k, selects g' !! k with
    | Some (options, dflt), Some (options', dflt') =>
        dflt' = dflt ∧ options `prefix_of` options'
    | None, None => True
    | _, _ => False
    end.

(** A network and a parser for a start of the page: a schema with one text
    field and one listed configuration, which is the default. *)
Definition demo_parse (s : string) : option jsval :=
  if String.eqb s "schema" then Some (VObj [("name", VStr "")])
  else if String.eqb s "configs" then
    Some (VArr [VArr [VStr "stops_compose.json"; VStr "Stops"]])
  else if String.eqb s "stops" then Some (VObj [("name", VStr "stops")])
  else if String.eqb s "{}" then Some (VObj [])
  else None.

Definition demo_net (r : request) : outcome :=
  match r with
  | GET url =>
      if String.eqb url "/structure.json" then Responded 200 "schema"
      else if String.eqb url "/configs.json" then Responded 200 "configs"
      else if String.eqb url "/default_input" then
        Responded 200 "stops_compose.json"
      else if String.eqb url "/stops_compose.json" then Responded 200 "stops"
      else Responded 200 "{}"
  | POST _ _ body => Responded 200 ("SELECT * WHERE { } # " +:+ body)
  end.



(** * Properties *)

(** ** Running asynchronous code *)

Lemma run_bind {A B} (net : request → outcome) (m : io A) (f : A → io B) :
  run net (io_bind m f) =
    match run net m with
    | (sent, Some a) => let '(sent', b) := run net (f a) in (sent ++ sent', b)
    | (sent, None) => (sent, None)
    end.
Proof.
  induction m as [a| |r k IH]; simpl.
  - by destruct (run net (f a)).
  - done.
  - rewrite IH. destruct (run net (k (net r))) as [sent [a|]]; [|done].
    by destruct (run net (f a)).
Qed.

Lemma run_json parse net url :
  run net (_json parse url) =
    ([GET url],
     match net (GET url) with
     | Responded _ body => parse body
     | Rejected _ => None
     end).
Proof.
  unfold _json; simpl. destruct (net (GET url)) as [st body|]; [|done].
  by destruct (parse body).
Qed.

Lemma run_fetch_text net url :
  run net (fetch_text url) =
    ([GET url],
     match net (GET url) with
     | Responded _ body => Some body
     | Rejected _ => None
     end).
Proof. unfold fetch_text; simpl. by destruct (net (GET url)). Qed.

Lemma run_lift {A} net (o : option A) : run net (lift o) = ([], o).
Proof. by destruct o. Qed.

(** ** The schema loader *)

(** C2, as stated, fails: a load that succeeds has sent seven requests, the
    fifth of them for [/configs.json]. *)
Lemma loadUIConfig_more_than_four :
  ¬ (∀ parse net p,
       (run net (loadUIConfig parse p)).1 =
         [GET "/structure.json"; GET "/descriptions.json";
          GET "/selects.json"; GET "/defaults.json"]).
Proof.
  intros H. specialize (H toy_parse toy_net blank_page).
  vm_compute in H. discriminate H.
Qed.

(** C2, amended: [loadUIConfig] requests the four schema documents first,
    in the order structure, descriptions, selects, defaults, and nothing
    before them; the requests it sends are always an initial part of
    [loader_requests], and a load that succeeds has sent all seven: the four
    schema documents and then the list of configurations, the default
    configuration's name and that configuration. *)
Theorem loadUIConfig_requests parse net p :
  (run net (loadUIConfig parse p)).1 `prefix_of` loader_requests (served_name net) ∧
  (is_Some (run net (loadUIConfig parse p)).2 →
   (run net (loadUIConfig parse p)).1 = loader_requests (served_name net)).
Proof.
  unfold loadUIConfig, loader_requests, served_name.
  repeat (rewrite run_bind, ?run_json, ?run_fetch_text;
          match goal with
          | |- context [net (GET ?u)] =>
              destruct (net (GET u)) as [? ?|?] eqn:?; simpl
          end;
          [try match goal with
               | |- context [parse ?b] => destruct (parse b) eqn:?; simpl
               end|];
          try (split; [by repeat (apply prefix_cons || apply prefix_nil)
                      | by intros [? ?]])).
  all: rewrite run_lift; simpl; split; try done.
Qed.

Lemma loadUIConfig_requests_witness :
  (run toy_net (loadUIConfig toy_parse blank_page)).1
    `prefix_of` loader_requests (served_name toy_net) ∧
  is_Some (run toy_net (loadUIConfig toy_parse blank_page)).2 ∧
  (run toy_net (loadUIConfig toy_parse blank_page)).1 =
    loader_requests (served_name toy_net).
Proof.
  split; [apply (loadUIConfig_requests toy_parse toy_net blank_page)|].
  split; [vm_compute; eexists; reflexivity|].
  apply (loadUIConfig_requests toy_parse toy_net blank_page).
  vm_compute; eexists; reflexivity.
Defined.

(** ** The compose request *)



(** C4, as stated, fails on a network error: the output then shows the
    word [undefined], not the error the request failed with. *)
Lemma compose_network_error_not_reported :
  ¬ (∀ stringify net p p',
       (run net (compose stringify p)).2 = Some p' →
       (∀ res_json, status_of (net (compose_request res_json)) ≠ Some 200) →
       ∃ res_json,
         rq_pre_innerText (out p') = error_string (net (compose_request res_json))).
Proof.
  intros H.
  destruct (H toy_stringify dead_net blank_page _ eq_refl) as [res_json Hshown].
  - done.
  - vm_compute in Hshown. discriminate Hshown.
Qed.

(** C4, amended: when the form serializes and the compose request fails,
    by a response whose status is not 200 or by a network error, [compose]
    has sent that one request and no other, the output area is marked as
    an error and the SPARQL download button is hidden; for a response the
    text shown is the text of the response.  The form, the schema
    documents and the JSON output that this call of [compose] generated
    are left as [generateConfig] left them. *)
Theorem compose_reports_failure stringify net p res_json p1 :
  generateConfig stringify (with_out (set_rq false "" (out p)) p) = Some (res_json, p1) →
  status_of (net (compose_request res_json)) ≠ Some 200 →
  ∃ p', run net (compose stringify p) = ([compose_request res_json], Some p') ∧
    rq_pre_error (out p') = true ∧
    rq_dl_btn_display (out p') = "none" ∧
    (∀ status text, net (compose_request res_json) = Responded status text →
       rq_pre_innerText (out p') = text) ∧
    main p' = main p ∧ docs p' = docs p ∧
    json_pre_innerText (out p') = res_json ∧
    json_dl_href (out p') = res_json ∧
    json_dl_download (out p') = json_dl_download (out p1) ∧
    json_dl_btn_display (out p') = "".
Proof.
  intros Hgen Hfail. unfold compose. rewrite Hgen; simpl.
  rewrite bool_decide_eq_false_2 by done.
  eexists; split; [done|]; simpl.
  unfold generateConfig in Hgen.
  destruct (allInputsToConfigObject _) as [result|]; [|done].
  simpl in Hgen. injection Hgen as <- <-; simpl.
  repeat split; try done. by intros status text ->.
Qed.

Lemma compose_reports_failure_witness :
  ∃ p', run refusing_net (compose toy_stringify blank_page) =
          ([compose_request "{}"], Some p') ∧
    rq_pre_error (out p') = true ∧
    rq_dl_btn_display (out p') = "none" ∧
    (∀ status text, refusing_net (compose_request "{}") = Responded status text →
       rq_pre_innerText (out p') = text) ∧
    main p' = main blank_page ∧ docs p' = docs blank_page ∧
    json_pre_innerText (out p') = "{}" ∧
    json_dl_href (out p') = "{}" ∧
    json_dl_download (out p') =
      json_dl_download
        (out (default (("", blank_page))
                (generateConfig toy_stringify
                   (with_out (set_rq false "" (out blank_page)) blank_page))).2) ∧
    json_dl_btn_display (out p') = "".
Proof.
  apply (compose_reports_failure toy_stringify refusing_net blank_page "{}").
  - reflexivity.
  - vm_compute. discriminate.
Defined.

(** ** Objects and arrays *)

Lemma forallb_Forall {A} (f : A → bool) (l : list A) :
  forallb f l = true ↔ Forall (λ x, f x = true) l.
Proof.
  induction l as [|x l IH]; simpl; [by split|].
  rewrite andb_true_iff, Forall_cons, IH. done.
Qed.














(** ** Serialized leaves *)



(** ** Document order *)

Lemma fields_among_cons keyed above i0 c ch :
  fields_among keyed above i0 (c :: ch) =
    fields_below keyed above i0 c ++ fields_among keyed above (S i0) ch.
Proof.
  unfold fields_among; simpl. rewrite Nat.add_0_r. f_equal. f_equal.
  apply imap_ext. intros i x _; simpl. f_equal. lia.
Qed.

Lemma fields_among_nil keyed above i0 : fields_among keyed above i0 [] = [].
Proof. done. Qed.

Lemma fields_below_Elem keyed above idx e ch :
  fields_below keyed above idx (Elem e ch) =
    (if keyed && is_field e then [((e, idx) :: above, ch)] else []) ++
    fields_among (keyed || has_key_attr e) ((e, idx) :: above) 0 ch.
Proof.
  simpl. f_equal. generalize 0%nat.
  induction ch as [|c ch IH]; intros i0; [done|].
  by rewrite fields_among_cons, IH.
Qed.

Lemma querySelectorAll_Elem e ch :
  querySelectorAll (Elem e ch) = fields_among false [] 0 ch.
Proof. done. Qed.

(** ** The serializer reads the skeleton only *)

Lemma select_value_skeleton ch : select_value (skeleton <$> ch) = select_value ch.
Proof.
  induction ch as [|c ch IH]; [done|].
  rewrite fmap_cons. destruct c as [s|e ch']; simpl; by rewrite IH.
Qed.

Lemma field_value_skeleton e ch :
  field_value (bare_element e) (skeleton <$> ch) = field_value e ch.
Proof.
  unfold field_value.
  change (tagName (bare_element e)) with (tagName e).
  change (type (bare_element e)) with (type e).
  change (value (bare_element e)) with (value e).
  by rewrite select_value_skeleton.
Qed.

Lemma climb_skeleton st (p : placed) :
  climb st (bare_element p.1, p.2) = climb st p.
Proof. by destruct st, p. Qed.

Lemma path_of_skeleton (chain : list placed) :
  path_of ((λ p : placed, (bare_element p.1, p.2)) <$> chain) = path_of chain.
Proof.
  unfold path_of. f_equal.
  generalize (@nil (option nat * string), @None nat).
  induction chain as [|p chain IH]; intros st; simpl; [done|].
  by rewrite climb_skeleton, IH.
Qed.

Lemma store_field_skeleton res h :
  store_field res (skeleton_hit h) = store_field res h.
Proof.
  destruct h as [[|[e idx] chain] ch]; unfold store_field, skeleton_hit; [done|].
  cbn [fst snd]. rewrite path_of_skeleton, fmap_cons. cbn [fst snd].
  by rewrite field_value_skeleton.
Qed.

Lemma fields_below_skeleton n keyed above idx :
  fields_below keyed ((λ p : placed, (bare_element p.1, p.2)) <$> above) idx
      (skeleton n) =
    skeleton_hit <$> fields_below keyed above idx n.
Proof.
  revert keyed above idx.
  induction n as [s|e ch IH] using node_ind; intros keyed above idx; [done|].
  change (skeleton (Elem e ch)) with (Elem (bare_element e) (skeleton <$> ch)).
  rewrite !fields_below_Elem, fmap_app. f_equal.
  - change (is_field (bare_element e)) with (is_field e).
    by destruct (keyed && is_field e).
  - change (has_key_attr (bare_element e)) with (has_key_attr e).
    generalize 0%nat. generalize (keyed || has_key_attr e).
    induction IH as [|c ch Hc _ IHch]; intros keyed' i0; [done|].
    rewrite fmap_cons, !fields_among_cons, fmap_app. f_equal; [|apply IHch].
    apply (Hc keyed' ((e, idx) :: above)).
Qed.

Lemma allInputs_skeleton main :
  allInputsToConfigObject (skeleton main) = allInputsToConfigObject main.
Proof.
  destruct main as [s|e ch]; [done|].
  unfold allInputsToConfigObject.
  change (skeleton (Elem e ch)) with (Elem (bare_element e) (skeleton <$> ch)).
  rewrite !querySelectorAll_Elem.
  assert (fields_among false [] 0 (skeleton <$> ch) =
          skeleton_hit <$> fields_among false [] 0 ch) as ->.
  { generalize 0%nat. induction ch as [|c ch IH]; intros i0; [done|].
    rewrite fmap_cons, !fields_among_cons, fmap_app, IH. f_equal.
    apply (fields_below_skeleton c false []). }
  generalize (Some (VObj [])).
  induction (fields_among false [] 0 ch) as [|h hits IH]; intros res; [done|].
  simpl. by rewrite store_field_skeleton, IH.
Qed.

(** C7: serialization is a function of the form alone, and of the form it
    reads only the skeleton: two forms with the same elements in the same
    positions, with the same keys, types, values and selections, serialize
    to the same object, whatever their classes, open state, handlers and
    texts; the JSON text that [generateConfig] produces depends on nothing
    but the form, and producing it changes neither the form nor the schema
    documents. *)
Theorem serialization_pure :
  (∀ main1 main2,
     skeleton main1 = skeleton main2 →
     allInputsToConfigObject main1 = allInputsToConfigObject main2) ∧
  (∀ stringify p1 p2,
     main p1 = main p2 →
     fst <$> generateConfig stringify p1 = fst <$> generateConfig stringify p2) ∧
  (∀ stringify p res_json p',
     generateConfig stringify p = Some (res_json, p') →
     main p' = main p ∧ docs p' = docs p ∧ i_inp_value p' = i_inp_value p).
Proof.
  split; [|split].
  - intros main1 main2 H.
    by rewrite <- (allInputs_skeleton main1), H, allInputs_skeleton.
  - intros stringify p1 p2 H. unfold generateConfig. rewrite H.
    by destruct (allInputsToConfigObject (main p2)).
  - intros stringify p res_json p'. unfold generateConfig.
    destruct (allInputsToConfigObject (main p)); [|done].
    by intros [= <- <-].
Qed.

Lemma serialization_pure_witness :
  allInputsToConfigObject two_field_form =
    allInputsToConfigObject (restyled two_field_form) ∧
  fst <$> generateConfig toy_stringify blank_page =
    fst <$> generateConfig toy_stringify (with_out (set_rq true "none" createOutputItems) blank_page) ∧
  (main (default ("", blank_page) (generateConfig toy_stringify blank_page)).2 =
     main blank_page ∧
   docs (default ("", blank_page) (generateConfig toy_stringify blank_page)).2 =
     docs blank_page ∧
   i_inp_value (default ("", blank_page) (generateConfig toy_stringify blank_page)).2 =
     i_inp_value blank_page).
Proof.
  split; [|split].
  - apply (proj1 serialization_pure). vm_compute. reflexivity.
  - apply (proj1 (proj2 serialization_pure)). reflexivity.
  - apply (proj2 (proj2 serialization_pure) toy_stringify blank_page "{}").
    reflexivity.
Defined.

(** ** The content of a form and the object it serializes to *)







































(** ** The fields of a form that follows a schema *)















Lemma item_element_not_field k e : item_element k e → is_field e = false.
Proof.
  intros ([Htag|Htag] & _). all: unfold is_field; rewrite Htag.
  all: by rewrite bool_decide_eq_false_2 by (by intros [|]).
Qed.


Lemma shaped_obj_cons k s_k fs el els kc cs :
  shaped (VObj ((k, s_k) :: fs)) (el :: els) (VObj (kc :: cs)) ↔
  ∃ e hd ch_k,
    el = Elem e (hd :: ch_k) ∧ kc.1 = k ∧ item_element (Some k) e ∧
    inert hd = true ∧ shaped s_k ch_k kc.2 ∧ shaped (VObj fs) els (VObj cs).
Proof.
  destruct kc as [k' c_k]. split.
  - intros (cs' & [= <-] & H). destruct el as [|e [|hd ch_k]]; try done.
    destruct H as (-> & He & Hhd & Hk & Hrest).
    exists e, hd, ch_k. split_and!; try done. by exists cs.
  - intros (e & hd & ch_k & -> & Hk & He & Hhd & Hsk & (cs' & [= <-] & Hrest)).
    simpl in Hk. subst k'. exists ((k, c_k) :: cs). split; [done|].
    split_and!; done.
Qed.

Lemma shaped_obj_inv fs els c :
  shaped (VObj fs) els c →
  ∃ cs, c = VObj cs ∧ length els = length fs ∧ cs.*1 = fs.*1.
Proof.
  intros (cs & -> & H). exists cs. split; [done|].
  revert els cs H. induction fs as [|[k s] fs IH]; intros els cs H.
  - by destruct els, cs.
  - destruct els as [|[|e [|hd ch_k]] els], cs as [|[k' c] cs]; try done.
    destruct H as (-> & _ & _ & _ & H). apply IH in H as [H1 H2].
    rewrite !fmap_cons. simpl. by rewrite H1, H2.
Qed.

Lemma shaped_obj_nil els c :
  shaped (VObj []) els c ↔ els = [] ∧ c = VObj [].
Proof.
  split.
  - intros (cs & -> & H). by destruct els, cs.
  - intros [-> ->]. by exists [].
Qed.








(** ** Select elements *)

Lemma settled_cons i0 k o opts :
  settled i0 k (o :: opts) =
    on_element (set_selected (bool_decide (i0 = k))) o :: settled (S i0) k opts.
Proof.
  unfold settled. simpl. rewrite Nat.add_0_r. f_equal.
  apply imap_ext. intros i x _. simpl. by rewrite Nat.add_succ_r.
Qed.

Lemma settled_app i0 k opts1 opts2 :
  settled i0 k (opts1 ++ opts2) =
    settled i0 k opts1 ++ settled (i0 + length opts1) k opts2.
Proof.
  revert i0. induction opts1 as [|o opts1 IH]; intros i0.
  - simpl. by rewrite Nat.add_0_r.
  - change ((o :: opts1) ++ opts2) with (o :: (opts1 ++ opts2)).
    rewrite !settled_cons, IH. simpl.
    by replace (i0 + S (length opts1))%nat with (S i0 + length opts1)%nat by lia.
Qed.

Lemma settled_settled i0 k k' opts :
  settled i0 k (settled i0 k' opts) = settled i0 k opts.
Proof.
  revert i0. induction opts as [|o opts IH]; intros i0; [done|].
  rewrite !settled_cons, IH. f_equal. by destruct o.
Qed.

Lemma length_settled i0 k opts : length (settled i0 k opts) = length opts.
Proof. unfold settled. by rewrite length_imap. Qed.

Lemma last_selected_bounds i0 opts j :
  last_selected i0 opts = Some j → (i0 ≤ j < i0 + length opts)%nat.
Proof.
  revert i0. induction opts as [|o opts IH]; intros i0; simpl; [done|].
  destruct (last_selected (S i0) opts) as [j'|] eqn:E.
  - intros [= <-]. apply IH in E. lia.
  - destruct (is_selected o); [|done]. intros [= <-]. lia.
Qed.

Lemma last_selected_app i0 opts o :
  last_selected i0 (opts ++ [o]) =
    if is_selected o then Some (i0 + length opts)%nat else last_selected i0 opts.
Proof.
  revert i0. induction opts as [|o' opts IH]; intros i0; simpl.
  - rewrite Nat.add_0_r. by destruct (is_selected o).
  - rewrite IH. destruct (is_selected o); [|done]. f_equal. lia.
Qed.

Lemma last_selected_settled i0 k opts :
  Forall is_element opts →
  last_selected i0 (settled i0 k opts) =
    if decide (i0 ≤ k < i0 + length opts)%nat then Some k else None.
Proof.
  intros Hel. revert i0. induction Hel as [|o opts Ho _ IH]; intros i0.
  - simpl. by rewrite decide_False by lia.
  - rewrite settled_cons. simpl. rewrite IH.
    destruct o as [|e ch]; [done|]. simpl.
    repeat case_decide; try done; try lia; case_bool_decide; try done;
      try lia; f_equal; lia.
Qed.

Lemma select_value_settled i0 k opts e ch :
  (i0 ≤ k)%nat → opts !! (k - i0)%nat = Some (Elem e ch) →
  Forall is_element opts →
  select_value (settled i0 k opts) = value e.
Proof.
  intros Hle Hlook Hel. revert i0 Hle Hlook.
  induction Hel as [|o opts Ho _ IH]; intros i0 Hle Hlook; [done|].
  rewrite settled_cons. destruct o as [|e' ch']; [done|]. simpl.
  destruct (decide (i0 = k)) as [->|Hne].
  - rewrite bool_decide_eq_true_2 by done.
    replace (k - k)%nat with 0%nat in Hlook by lia. by injection Hlook as -> ->.
  - rewrite bool_decide_eq_false_2 by done. apply IH; [lia|].
    replace (k - i0)%nat with (S (k - S i0)) in Hlook by lia. done.
Qed.

Lemma option_node_element selected od : is_element (option_node selected od).
Proof. destruct od as [o d]. unfold option_node. by repeat case_match. Qed.

Lemma option_node_selected selected od :
  is_selected (option_node selected od) = bool_decide (Some od.1 = selected).
Proof.
  destruct od as [o d]. unfold option_node. simpl.
  destruct (String.eqb d ""); by case_bool_decide.
Qed.

Lemma option_node_value selected od :
  ∃ e ch, option_node selected od = Elem e ch ∧ value e = od.1 ∧
          tagName e = OPTION ∧ onclick e = None ∧ forallb inert ch = true.
Proof.
  destruct od as [o d]. unfold option_node, set_innerText, text. simpl.
  destruct (String.eqb d ""), (bool_decide _); simpl;
    repeat case_match; eauto 10.
Qed.

Lemma selectedness_setting_settled opts :
  selectedness_setting opts =
    settled 0 (default 0%nat (last_selected 0 opts)) opts.
Proof. reflexivity. Qed.

(** [createSelect] leaves the options with exactly the [chosen] one
    selected. *)
Lemma createSelect_spec options selected :
  createSelect options selected =
    Elem (createElement SELECT)
      (settled 0 (chosen options selected) (option_node selected <$> options)).
Proof.
  unfold createSelect, chosen.
  induction options as [|od options IH] using rev_ind; [done|].
  rewrite fold_left_app, IH. simpl. f_equal.
  rewrite selectedness_setting_settled.
  set (raw := option_node selected <$> options).
  set (kP := default 0%nat (last_selected 0 raw)).
  assert (Forall is_element raw) as Hraw.
  { apply Forall_fmap, Forall_forall. intros ? _. apply option_node_element. }
  assert (default 0%nat (last_selected 0 (settled 0 kP raw)) = kP) as HkP.
  { rewrite last_selected_settled by done. case_decide; [done|].
    unfold kP in *. destruct (last_selected 0 raw) as [j|] eqn:E; [|done].
    apply last_selected_bounds in E. simpl in *. lia. }
  rewrite fmap_app. simpl. fold raw.
  rewrite !last_selected_app, length_settled. fold kP.
  destruct (is_selected (option_node selected od)).
  - simpl. rewrite settled_app, settled_settled, length_settled.
    by rewrite (settled_app 0 _ raw).
  - rewrite HkP.
    rewrite settled_app, settled_settled, length_settled.
    by rewrite (settled_app 0 _ raw).
Qed.

Lemma last_selected_exists i0 opts :
  Exists (λ o, is_selected o = true) opts → is_Some (last_selected i0 opts).
Proof.
  intros Hex. revert i0. induction Hex as [o opts Ho|o opts _ IH]; intros i0; simpl.
  - destruct (last_selected (S i0) opts); [done|]. by rewrite Ho.
  - destruct (IH (S i0)) as [j ->]. done.
Qed.

Lemma last_selected_is_selected i0 opts j :
  last_selected i0 opts = Some j →
  ∃ o, opts !! (j - i0)%nat = Some o ∧ is_selected o = true.
Proof.
  revert i0. induction opts as [|o opts IH]; intros i0; simpl; [done|].
  destruct (last_selected (S i0) opts) as [j'|] eqn:E.
  - intros [= <-]. pose proof (last_selected_bounds _ _ _ E).
    destruct (IH _ E) as (o' & Ho' & Hsel). exists o'.
    replace (j' - i0)%nat with (S (j' - S i0)) by lia. done.
  - destruct (is_selected o) eqn:Hsel; [|done]. intros [= <-].
    exists o. by replace (i0 - i0)%nat with 0%nat by lia.
Qed.

(** A select created with a selected value that is among its options has
    that value. *)
Lemma createSelect_value options d :
  d ∈ options.*1 →
  ∃ e opts, createSelect options (Some d) = Elem e opts ∧
    e = createElement SELECT ∧ select_value opts = d ∧
    forallb inert opts = true.
Proof.
  intros Hd. rewrite createSelect_spec. eexists _, _. split; [done|].
  split; [done|].
  set (raw := option_node (Some d) <$> options).
  assert (Forall is_element raw) as Hraw.
  { apply Forall_fmap, Forall_forall. intros ? _. apply option_node_element. }
  split.
  - unfold chosen. fold raw.
    destruct (last_selected_exists 0 raw) as [k Hk].
    { apply list_elem_of_fmap in Hd as ([o desc] & Heq & Hin).
      simpl in Heq. subst o.
      apply Exists_exists. exists (option_node (Some d) (d, desc)). split.
      - apply list_elem_of_fmap. eauto.
      - rewrite option_node_selected. by apply bool_decide_eq_true. }
    rewrite Hk. simpl.
    destruct (last_selected_is_selected _ _ _ Hk) as (o & Ho & Hsel).
    unfold raw in Ho. rewrite list_lookup_fmap in Ho.
    destruct (options !! (k - 0)%nat) as [od|] eqn:Eod; [|done].
    injection Ho as <-. rewrite option_node_selected in Hsel.
    apply bool_decide_eq_true in Hsel. injection Hsel as Hsel.
    destruct (option_node_value (Some d) od) as (e & ch & Heq & Hval & _).
    rewrite (select_value_settled 0 k raw e ch); [congruence|lia| |done].
    unfold raw. by rewrite list_lookup_fmap, Eod, <- Heq.
  - apply forallb_Forall. unfold settled.
    apply Forall_forall. intros o Ho.
    apply list_elem_of_lookup in Ho as [i Hi].
    rewrite list_lookup_imap in Hi.
    unfold raw in Hi. rewrite list_lookup_fmap in Hi.
    destruct (options !! i) as [od|]; [|done]. simpl in Hi.
    injection Hi as <-.
    destruct (option_node_value (Some d) od) as (e & ch & -> & _ & Htag & Hclick & Hch).
    simpl. unfold is_field. simpl. rewrite Htag, Hclick, Hch.
    by rewrite bool_decide_eq_false_2 by (by intros [|]).
Qed.

(** ** Numbers and their numerals *)

Lemma int_of_digits z : NilZero.int_of_string (digits_of z) = Some (Z.to_int z).
Proof.
  apply NilZero.isi; destruct z; simpl; intros [=];
    by eapply Unsigned.to_uint_nonnil.
Qed.

Lemma Number_digits z : safe_integer z = true → Number (digits_of z) = Some z.
Proof.
  intros Hz. unfold Number.
  destruct (String.eqb_spec (digits_of z) "") as [E|_].
  - pose proof (int_of_digits z) as H. by rewrite E in H.
  - rewrite int_of_digits. simpl. by rewrite DecimalZ.of_to, Hz.
Qed.

Lemma sanitize_digits z :
  safe_integer z = true → sanitize_number (digits_of z) = Some (digits_of z).
Proof.
  intros Hz. unfold sanitize_number.
  by rewrite int_of_digits, DecimalZ.of_to, Hz.
Qed.

Lemma sanitize_number_Number s s' :
  sanitize_number s = Some s' → is_Some (Number s').
Proof.
  unfold sanitize_number, Number.
  destruct (NilZero.int_of_string s) as [d|] eqn:E.
  - destruct (safe_integer (Z.of_int d)) eqn:Hs; [|done]. intros [= <-].
    destruct (String.eqb s ""); [done|]. rewrite E. simpl. by rewrite Hs.
  - destruct (_ && _); [done|]. by intros [= <-].
Qed.

(** ** The fields the builder creates *)

Lemma assign_value_role v e e' :
  assign_value v e = Some e' →
  tagName e' = tagName e ∧ dataset_key e' = dataset_key e ∧
  onclick e' = onclick e ∧ type e' = type e.
Proof.
  unfold assign_value. destruct (ToString v) as [s|]; [simpl|done].
  destruct (String.eqb (type e) "number").
  - destruct (sanitize_number s); [simpl|done]. by intros [= <-].
  - by intros [= <-].
Qed.

Lemma createTextField_shaped path e ch data g cur' g' s :
  createTextField path (Elem e ch) data g = Some (cur', g') →
  ∃ new c, cur' = Elem e (ch ++ new) ∧ g' = g ∧ shaped (VStr s) new c ∧
           (conforms (VStr s) data = true → c = data).
Proof.
  unfold createTextField.
  set (el0 := set_type "text" (createElement INPUT)).
  assert (∀ v el, assign_value v el0 = Some el →
            field_element el ∧ field_value el [] = Some (VStr (value el)) ∧
            ∃ t, ToString v = Some t ∧ value el = strip_newlines t) as Hassign.
  { intros v el Hv. destruct (assign_value_role _ _ _ Hv) as (Ht & Hk & Hc & Hty).
    split; [|split].
    - unfold field_element, is_field. rewrite Ht, Hk, Hc. done.
    - unfold field_value. rewrite Ht, Hty. done.
    - unfold assign_value in Hv. destruct (ToString v) as [t|]; [|done].
      exists t. split; [done|]. simpl in Hv. by injection Hv as <-. }
  destruct (truthy data) eqn:Ht.
  - destruct (assign_value data el0) as [el|] eqn:Ev; [simpl|done].
    intros [= <- <-]. destruct (Hassign _ _ Ev) as ((Hf & Hk & Hc) & Hv & t & Ht' & Hval).
    exists [Elem el []], (VStr (value el)). split_and!; try done.
    + by exists el, [], [].
    + destruct data as [| | | |d| |]; try done. simpl.
      intros [_ Hd%String.eqb_eq]%andb_prop. simpl in Ht'.
      injection Ht' as <-. by rewrite Hval, Hd.
  - destruct (truthy (default_at g path)).
    + destruct (assign_value (default_at g path) el0) as [el|] eqn:Ev; [simpl|done].
      intros [= <- <-].
      destruct (Hassign _ _ Ev) as ((Hf & Hk & Hc) & Hv & _).
      exists [Elem el []], (VStr (value el)). split_and!; try done.
      * by exists el, [], [].
      * destruct data as [| | | |d| |]; try done. simpl in *.
        by rewrite Ht.
    + simpl. intros [= <- <-].
      exists [Elem el0 []], (VStr (value el0)). split_and!; try done.
      * by exists el0, [], [].
      * destruct data as [| | | |d| |]; try done. simpl in *.
        by rewrite Ht.
Qed.

Lemma createTextField_conforms path e ch d g s :
  conforms (VStr s) (VStr d) = true →
  is_Some (createTextField path (Elem e ch) (VStr d) g).
Proof.
  simpl. intros [Hne _]%andb_prop. unfold createTextField. simpl.
  by rewrite Hne.
Qed.

Lemma createNumberField_shaped path e ch data g cur' g' n :
  createNumberField path (Elem e ch) data g = Some (cur', g') →
  ∃ new c, cur' = Elem e (ch ++ new) ∧ g' = g ∧ shaped (VNum n) new c ∧
           (conforms (VNum n) data = true → c = data).
Proof.
  unfold createNumberField.
  set (el0 := set_min "0" (set_type "number" (createElement INPUT))).
  assert (∀ v el, assign_value v el0 = Some el →
            field_element el ∧
            ∃ z, field_value el [] = Some (VNum z) ∧
                 (∀ z', v = VNum z' → safe_integer z' = true → z = z'))
    as Hassign.
  { intros v el Hv. destruct (assign_value_role _ _ _ Hv) as (Ht & Hk & Hc & Hty).
    split.
    - unfold field_element, is_field. rewrite Ht, Hk, Hc. done.
    - unfold field_value. rewrite Ht, Hty. simpl.
      unfold assign_value in Hv. destruct (ToString v) as [t|] eqn:Et; [|done].
      simpl in Hv. destruct (sanitize_number t) as [t'|] eqn:Es; [|done].
      injection Hv as <-. simpl.
      destruct (sanitize_number_Number _ _ Es) as [z Hz]. exists z.
      rewrite Hz. split; [done|]. intros z' -> Hsafe. simpl in Et.
      rewrite Hsafe in Et. injection Et as <-.
      rewrite sanitize_digits in Es by done. injection Es as <-.
      rewrite Number_digits in Hz by done. congruence. }
  assert (∀ v, (conforms (VNum n) data = true → v = data) →
            match assign_value v el0 with
            | Some el => Some (appendChild (Elem e ch) (Elem el []), g)
            | None => None
            end = Some (cur', g') →
            ∃ new c, cur' = Elem e (ch ++ new) ∧ g' = g ∧
              shaped (VNum n) new c ∧ (conforms (VNum n) data = true → c = data))
    as Hgen.
  { intros v Hvd. destruct (assign_value v el0) as [el|] eqn:Ev; [|done].
    intros [= <- <-].
    destruct (Hassign _ _ Ev) as ((Hf & Hk & Hc) & z & Hz & Hzz).
    exists [Elem el []], (VNum z). split_and!; try done.
    - by exists el, [], [].
    - intros Hconf. specialize (Hvd Hconf). subst v.
      destruct data as [| | |z'| | |]; try done. simpl in Hconf.
      apply andb_prop in Hconf as [_ Hsafe]. by rewrite (Hzz z' eq_refl Hsafe). }
  destruct data as [| | |z| | |]; apply Hgen; try done.
  simpl. unfold js_or. simpl. intros [Hz _]%andb_prop. by rewrite Hz.
Qed.

Lemma createNumberField_conforms path e ch z g n :
  conforms (VNum n) (VNum z) = true →
  is_Some (createNumberField path (Elem e ch) (VNum z) g).
Proof.
  simpl. intros [Hne Hsafe]%andb_prop. unfold createNumberField, js_or. simpl.
  rewrite Hne. unfold assign_value. simpl. rewrite Hsafe. simpl.
  by rewrite sanitize_digits.
Qed.

Lemma settled_options_inert i0 k selected options :
  forallb inert (settled i0 k (option_node selected <$> options)) = true.
Proof.
  apply forallb_Forall, Forall_forall. intros o Ho. unfold settled in Ho.
  apply list_elem_of_lookup in Ho as [i Hi].
  rewrite list_lookup_imap, list_lookup_fmap in Hi.
  destruct (options !! i) as [od|]; [|done]. simpl in Hi. injection Hi as <-.
  destruct (option_node_value selected od) as (e & ch & -> & _ & Htag & Hclick & Hch).
  simpl. unfold is_field. simpl. rewrite Htag, Hclick, Hch.
  by rewrite bool_decide_eq_false_2 by (by intros [|]).
Qed.

Lemma createSelectField_shaped path e ch data options dflt g cur' g' s :
  createSelectField path (Elem e ch) data options dflt g = Some (cur', g') →
  ∃ new c, cur' = Elem e (ch ++ new) ∧ shaped (VStr s) new c ∧
           (∀ d, data = VStr d → String.eqb d "" = false → c = data).
Proof.
  unfold createSelectField.
  assert (∀ val options' g1
            (Hval : ∀ d, data = VStr d → String.eqb d "" = false →
                         val = Some d ∧ d ∈ options'.*1),
    Some (let el := createSelect options' val in
          let current := appendChild (Elem e ch) el in
          let current :=
            if forallb (λ opt, is_query_file opt.1) options' then
              let viewEl := set_innerText "Preview" (Elem (createElement BUTTON) []) in
              let viewEl := on_element (add_class "view_btn") viewEl in
              let viewEl := on_element (set_onclick ShowPreview) viewEl in
              appendChild current viewEl
            else current in
          (current, g1)) = Some (cur', g') →
    ∃ new c, cur' = Elem e (ch ++ new) ∧ shaped (VStr s) new c ∧
             (∀ d, data = VStr d → String.eqb d "" = false → c = data)) as Hgen.
  { intros val options' g1 Hval. rewrite createSelect_spec. cbn zeta.
    set (opts := settled 0 _ _).
    assert (forallb inert opts = true) as Hopts by apply settled_options_inert.
    assert (∀ d, data = VStr d → String.eqb d "" = false →
                 VStr (select_value opts) = data) as Hc.
    { intros d -> Hne. destruct (Hval d eq_refl Hne) as (-> & Hd).
      destruct (createSelect_value _ _ Hd) as (e1 & opts1 & Heq & _ & Hv & _).
      rewrite createSelect_spec in Heq. injection Heq as Heq. subst opts1.
      f_equal. exact Hv. }
    destruct (forallb _ options'); intros [= <- <-].
    - eexists [_; _], _. simpl. rewrite <- app_assoc. split; [done|].
      split; [|exact Hc].
      eexists _, opts, [_]. split_and!; try done.
    - eexists [_], _. simpl. split; [done|]. split; [|exact Hc].
      eexists _, opts, []. split_and!; try done. }
  destruct (truthy data) eqn:Ht.
  - destruct data as [| | | |d| |]; try done.
    case_bool_decide as Hd.
    + simpl. apply Hgen. by intros ? [= <-] _.
    + simpl. apply Hgen. intros ? [= <-] _. split; [done|].
      rewrite fmap_app. apply elem_of_app. right. simpl. by left.
  - simpl. apply Hgen. intros d -> Hne. simpl in Ht. by rewrite Hne in Ht.
Qed.

Lemma createSelectField_conforms path e ch d options dflt g s :
  conforms (VStr s) (VStr d) = true →
  is_Some (createSelectField path (Elem e ch) (VStr d) options dflt g).
Proof.
  simpl. intros [Hne _]%andb_prop. unfold createSelectField. simpl.
  rewrite Hne. by case_bool_decide.
Qed.

(** ** The builder makes forms that follow the schema *)

Lemma createItems_obj path current fs data g :
  createItemsRecursively path current (VObj fs) data g =
    if forallb (λ kv, negb (index_like kv.1)) fs
    then create_fields path fs current data g else None.
Proof.
  simpl. destruct (forallb _ fs); [|done].
  revert current g. induction fs as [|[k item_k] fs IH]; intros current g; [done|].
  simpl. destruct (desc g path (Some k)) as [dName dLong].
  destruct (get_opt data k) as [data_k|]; [simpl|done].
  destruct (createItemsRecursively _ _ item_k data_k g) as [[el g1]|]; [simpl|done].
  apply IH.
Qed.

Lemma inert_text s : forallb inert (text s) = true.
Proof. unfold text. by destruct (String.eqb s ""). Qed.

Lemma createItem_shape key name description small :
  ∃ e hd, createItem key name description small = Elem e [hd] ∧
    item_element
      (match key with
       | Some k => if String.eqb k "" then None else Some k
       | None => None
       end) e ∧
    inert hd = true.
Proof.
  unfold createItem. eexists _, _. split; [done|]. split.
  - destruct key as [k|]; [destruct (String.eqb k "")|];
      destruct small; split_and!; simpl; auto.
  - simpl. rewrite !inert_text. by destruct small.
Qed.

Lemma conforms_obj fs ds :
  conforms (VObj fs) (VObj ds) = true ↔ fs ≠ [] ∧ Forall2 field_conforms fs ds.
Proof.
  simpl. rewrite andb_true_iff, negb_true_iff, bool_decide_eq_false.
  apply and_iff_compat_l.
  revert ds. induction fs as [|[k s] fs IH]; intros [|[k' d] ds]; simpl.
  - split; [by constructor|done].
  - split; [done|by inversion 1].
  - split; [done|by inversion 1].
  - rewrite !andb_true_iff, IH, String.eqb_eq. split.
    + intros [[-> Hc] Hrest]. by constructor.
    + inversion 1 as [|???? [Hk Hc] Hrest]; subst. simpl in *. by subst.
Qed.

Lemma conforms_arr item rest ds :
  conforms (VArr (item :: rest)) (VArr ds) = true ↔
    ds ≠ [] ∧ Forall (λ d, conforms item d = true) ds.
Proof.
  simpl. rewrite andb_true_iff, negb_true_iff, bool_decide_eq_false.
  by rewrite forallb_Forall.
Qed.

Lemma own_NoDup l k v : NoDup l.*1 → (k, v) ∈ l → own l k = Some v.
Proof.
  induction l as [|[k' v'] l IH]; simpl; [by inversion 2|].
  intros [Hnotin Hnd]%NoDup_cons [[= -> ->]|Hin]%elem_of_cons.
  - by rewrite String.eqb_refl.
  - destruct (String.eqb_spec k' k) as [->|_]; [|auto].
    destruct Hnotin. apply list_elem_of_fmap. by exists (k, v).
Qed.

Lemma wf_keys_not_index_like fs :
  forallb key_ok fs.*1 = true →
  forallb (λ kv : string * jsval, negb (index_like kv.1)) fs = true.
Proof.
  induction fs as [|[k s] fs IH]; simpl; [done|].
  intros [Hk Hfs]%andb_prop. rewrite IH by done.
  apply andb_prop in Hk as [_ [_ ->]%andb_prop]. done.
Qed.


Lemma add_entries_None fill path small entries :
  add_entries fill path small entries None = None.
Proof. unfold add_entries. by induction entries. Qed.

Lemma add_entries_cons fill path small k entries st :
  add_entries fill path small (k :: entries) (Some st) =
    add_entries fill path small entries (addListEntry fill path small k st).
Proof. done. Qed.

Lemma createListElItem_shape name description :
  ∃ e_li e_c hd e_del txt,
    createListElItem name description = (e_li, Elem e_c [hd; Elem e_del txt]) ∧
    tagName e_li = LI ∧ dataset_key e_li = None ∧ onclick e_li = None ∧
    item_element None e_c ∧ inert hd = true ∧
    tagName e_del = BUTTON ∧ onclick e_del = Some RemoveEntry ∧
    forallb inert txt = true.
Proof.
  unfold createListElItem.
  destruct (createItem_shape None name description false)
    as (e_c & hd & -> & Hc & Hhd).
  eexists _, e_c, hd, _, _. simpl. split_and!; done.
Qed.

Lemma entries_shaped item path small :
  builds_shaped item →
  ∀ entries list_e lis0 i0 g0,
    (∀ list' i' g',
       add_entries (λ path c data_ g, createItemsRecursively path c item data_ g)
         path small entries (Some (Elem list_e lis0, i0, g0)) =
         Some (list', i', g') →
       ∃ lis cs, list' = Elem list_e (lis0 ++ lis) ∧
         Forall2 (entry_shaped item) lis cs ∧
         (Forall (λ d, conforms item d = true) entries → cs = entries)) ∧
    (Forall (λ d, conforms item d = true) entries →
     is_Some (add_entries
                (λ path c data_ g, createItemsRecursively path c item data_ g)
                path small entries (Some (Elem list_e lis0, i0, g0)))).
Proof.
  intros Hitem entries.
  induction entries as [|k entries IH]; intros list_e lis0 i0 g0.
  { split.
    - intros list' i' g' [= <- <- <-]. exists [], []. rewrite app_nil_r.
      split_and!; [done|constructor|done].
    - by intros _. }
  rewrite add_entries_cons. unfold addListEntry.
  destruct (desc g0 path (Some "_")) as [dName dLong].
  destruct (createListElItem_shape dName dLong)
    as (e_li & e_c & hd & e_del & txt & -> & Hli & Hlik & Hlic & Hc & Hhd &
        Hdel & Hdelc & Htxt).
  cbn [on_element].
  destruct (Hitem (path ++ [PIdx i0]) (set_open small e_c)
              [hd; Elem e_del txt] k g0) as [Hshape Hsucc].
  destruct (createItemsRecursively _ _ item k g0) as [[c' g1]|] eqn:Ec.
  - destruct (Hshape _ _ eq_refl) as (e' & inner & c_i & -> & Hrole & Hsh & Hconf).
    cbn [mbind option_bind appendChild attach_entry].
    destruct (IH list_e (lis0 ++ [Elem e_li [Elem e' ([hd; Elem e_del txt] ++ inner)]])
                (S i0) g1) as [IHshape IHsucc].
    assert (entry_shaped item
              (Elem e_li [Elem e' ([hd; Elem e_del txt] ++ inner)]) c_i) as Hentry.
    { exists inner. split; [|done].
      exists e_li, e', hd, e_del, txt. split_and!; try done.
      destruct Hrole as (Ht & Hk & Ho). destruct Hc as (Hct & Hck & Hco).
      split_and!; [by rewrite Ht|by rewrite Hk|by rewrite Ho]. }
    split.
    + intros list' i' g' Hfold.
      destruct (IHshape _ _ _ Hfold) as (lis & cs & -> & Hlis & Hcs).
      exists (Elem e_li [Elem e' ([hd; Elem e_del txt] ++ inner)] :: lis), (c_i :: cs).
      rewrite <- app_assoc. split_and!; [done|by constructor|].
      intros [Hk Hrest]%Forall_cons_1. by rewrite Hconf, Hcs.
    + intros [Hk Hrest]%Forall_cons_1. by apply IHsucc.
  - cbn [mbind option_bind]. rewrite add_entries_None. split; [done|].
    intros [Hk _]%Forall_cons_1. by destruct (Hsucc Hk).
Qed.

Lemma fields_shaped path e data fs :
  Forall (λ kv, builds_shaped kv.2) fs → forallb key_ok fs.*1 = true →
  ∀ ch0 g,
    (∀ cur' g',
       create_fields path fs (Elem e ch0) data g = Some (cur', g') →
       ∃ els cs, cur' = Elem e (ch0 ++ els) ∧ shaped (VObj fs) els (VObj cs) ∧
         (∀ ds, Forall2 field_conforms fs ds →
                (∀ kd, kd ∈ ds → get_opt data kd.1 = Some kd.2) → cs = ds)) ∧
    (∀ ds, Forall2 field_conforms fs ds →
           (∀ kd, kd ∈ ds → get_opt data kd.1 = Some kd.2) →
           is_Some (create_fields path fs (Elem e ch0) data g)).
Proof.
  intros Hfs. induction Hfs as [|[k item_k] fs Hk _ IH]; intros Hkeys ch0 g.
  { split.
    - intros cur' g' [= <- <-]. exists [], []. rewrite app_nil_r.
      split_and!; [done|by exists []|]. by inversion 1.
    - by intros ds _ _. }
  simpl in Hkeys. apply andb_prop in Hkeys as [Hkok Hkeys].
  assert (String.eqb k "" = false) as Hne.
  { apply andb_prop in Hkok as [Hne _]. by apply negb_true_iff in Hne. }
  specialize (IH Hkeys). simpl in Hk.
  cbn [create_fields].
  destruct (desc g path (Some k)) as [dName dLong].
  destruct (createItem_shape (Some k) dName dLong (is_small item_k))
    as (e_k & hd & -> & He & Hhd).
  rewrite Hne in He. cbn [key_of].
  destruct (get_opt data k) as [data_k|] eqn:Eg; cbn [mbind option_bind].
  2:{ split; [done|]. intros ds Hds Hget. inversion Hds as [|? kd ? ds' [Hkd _] _]; subst.
      specialize (Hget kd (list_elem_of_here _ _)). simpl in Hkd.
      rewrite Hkd in Hget. congruence. }
  destruct (Hk (path ++ [PEl (dataset_key e_k)]) e_k [hd] data_k g)
    as [Hshape Hsucc].
  destruct (createItemsRecursively _ _ item_k data_k g) as [[el' g1]|] eqn:Ec.
  - destruct (Hshape _ _ eq_refl) as (e' & new & c_k & -> & Hrole & Hsh & Hconf).
    cbn [appendChild]. destruct (IH (ch0 ++ [Elem e' ([hd] ++ new)]) g1)
      as [IHshape IHsucc].
    split.
    + intros cur' g' Hrest.
      destruct (IHshape _ _ Hrest) as (els & cs & -> & Hels & Hcs).
      exists (Elem e' ([hd] ++ new) :: els), ((k, c_k) :: cs).
      rewrite <- app_assoc. split_and!; [done| |].
      * apply shaped_obj_cons. exists e', hd, new. split_and!; try done.
        destruct Hrole as (Ht & Hkey & Ho). destruct He as (Het & Hek & Heo).
        split_and!; [by rewrite Ht|by rewrite Hkey|by rewrite Ho].
      * intros ds Hds Hget.
        inversion Hds as [|? [k' d] ? ds' [Hkd Hcd] Hrest']; subst.
        simpl in Hkd, Hcd. subst k'.
        pose proof (Hget (k, d) (list_elem_of_here _ _)) as Hd. simpl in Hd.
        rewrite Eg in Hd. injection Hd as ->.
        rewrite (Hconf Hcd). f_equal. apply Hcs; [done|].
        intros kd Hin. apply Hget. by right.
    + intros ds Hds Hget.
      inversion Hds as [|? [k' d] ? ds' [Hkd Hcd] Hrest']; subst.
      apply (IHsucc ds'); [done|]. intros kd Hin. apply Hget. by right.
  - cbn [mbind option_bind]. split; [done|]. intros ds Hds Hget.
    inversion Hds as [|? [k' d] ? ds' [Hkd Hcd] Hrest']; subst.
    simpl in Hkd, Hcd. subst k'.
    pose proof (Hget (k, d) (list_elem_of_here _ _)) as Hd. simpl in Hd.
    rewrite Eg in Hd. injection Hd as ->. by destruct (Hsucc Hcd).
Qed.

Lemma createItems_arr path current item rest data g :
  createItemsRecursively path current (VArr (item :: rest)) data g =
    let '(current, list, add_btn) := createListItem current in
    let small := is_small item in
    let defaultData := default_at g path in
    let '(dName, _) := desc g path (Some "_") in
    let add_btn :=
      if String.eqb dName "" then add_btn
      else set_innerText (innerText add_btn +:+ " " +:+ dName) add_btn in
    entries ← iterate data;
    '(list, i, g) ←
      add_entries (λ path c data_ g, createItemsRecursively path c item data_ g)
        path small entries (Some (list, 0%nat, g));
    let add_btn :=
      on_element (set_onclick (AddEntry path item small defaultData i)) add_btn in
    Some (attach_list current list add_btn, g).
Proof. reflexivity. Qed.

(** Every call of the builder on a well-formed schema node adds, below the
    element it is given, nodes that follow that schema node; on conforming
    data it succeeds and the content of what it adds is the data. *)
Lemma build_shaped item : wf_schema item = true → builds_shaped item.
Proof.
  induction item as [| | |n|s|items IH|fs IH] using jsval_ind; intros Hwf; try done.
  - intros path e ch data g. split.
    + intros cur' g' Hb.
      destruct (createNumberField_shaped _ _ _ _ _ _ _ n Hb)
        as (new & c & -> & _ & Hsh & Hconf).
      exists e, new, c. by split_and!.
    + destruct data; try done. apply createNumberField_conforms.
  - intros path e ch data g. cbn [createItemsRecursively].
    destruct (selects g !! pathToString path None) as [[options dflt]|]; split.
    + intros cur' g' Hb.
      destruct (createSelectField_shaped _ _ _ _ _ _ _ _ _ s Hb)
        as (new & c & -> & Hsh & Hconf).
      exists e, new, c. split_and!; try done.
      destruct data as [| | | |d| |]; try done. simpl.
      intros [Hne%negb_true_iff _]%andb_prop. by apply (Hconf d).
    + destruct data; try done. apply createSelectField_conforms.
    + intros cur' g' Hb.
      destruct (createTextField_shaped _ _ _ _ _ _ _ s Hb)
        as (new & c & -> & _ & Hsh & Hconf).
      exists e, new, c. by split_and!.
    + destruct data; try done. apply createTextField_conforms.
  - destruct items as [|item rest]; [done|].
    simpl in Hwf. apply andb_prop in Hwf as [_ Hwf].
    apply Forall_cons_1 in IH as [IHitem _]. specialize (IHitem Hwf).
    intros path e ch data g. rewrite createItems_arr.
    unfold createListItem. cbn [on_element]. cbn zeta.
    destruct (desc g path (Some "_")) as [dName dLongUnused].
    set (add_btn := if String.eqb dName "" then _ else _).
    assert (∃ e_btn txt, add_btn = Elem e_btn txt ∧ tagName e_btn = BUTTON ∧
              onclick e_btn = None ∧ forallb inert txt = true)
      as (e_btn & txt & -> & Hbt & Hbo & Htxt).
    { unfold add_btn. destruct (String.eqb dName "").
      - eexists _, _. by split_and!.
      - eexists _, _. split; [done|]. split_and!; try done. }
    destruct (iterate data) as [entries|] eqn:Eit; cbn [mbind option_bind].
    2:{ split; [done|]. intros Hconf. by destruct data. }
    destruct (entries_shaped item path (is_small item) IHitem entries
                (createElement OL) [] 0%nat g) as [Hshape Hsucc].
    destruct (add_entries _ path (is_small item) entries _)
      as [[[list' i'] g1]|] eqn:Efold; cbn [mbind option_bind].
    + destruct (Hshape _ _ _ eq_refl) as (lis & cs & -> & Hlis & Hcs).
      split; [|done]. intros cur' g' [= <- <-].
      unfold attach_list. cbn [appendChild app on_element].
      eexists _, [_; _], (VArr cs). rewrite <- app_assoc. split; [done|].
      split; [done|]. split.
      * eexists _, lis, _, txt, cs, _, _, _, _. split_and!; try done.
      * intros Hconf. destruct data as [| | | | |ds|]; try done.
        apply conforms_arr in Hconf as [Hne Hall].
        destruct ds as [|d ds]; [done|]. simpl in Eit. injection Eit as <-.
        by rewrite Hcs.
    + split; [done|]. intros Hconf. destruct data as [| | | | |ds|]; try done.
      apply conforms_arr in Hconf as [Hne Hall].
      destruct ds as [|d ds]; [done|]. simpl in Eit. injection Eit as <-.
      by destruct (Hsucc Hall).
  - simpl in Hwf. apply andb_prop in Hwf as [Hkeys Hwfs].
    apply andb_prop in Hkeys as [Hkeys Hnodup].
    apply bool_decide_eq_true in Hnodup.
    assert (Forall (λ kv, builds_shaped kv.2) fs) as Hfs.
    { clear -IH Hwfs. induction IH as [|kv fs Hkv _ IHfs]; [constructor|].
      simpl in Hwfs. apply andb_prop in Hwfs as [H1 H2].
      constructor; [by apply Hkv|by apply IHfs]. }
    intros path e ch data g. rewrite createItems_obj.
    rewrite wf_keys_not_index_like by done.
    destruct (fields_shaped path e data fs Hfs Hkeys ch g) as [Hshape Hsucc].
    assert (∀ ds, conforms (VObj fs) data = true → data = VObj ds →
              Forall2 field_conforms fs ds ∧
              ∀ kd, kd ∈ ds → get_opt data kd.1 = Some kd.2) as Hdata.
    { intros ds Hconf ->. apply conforms_obj in Hconf as [_ Hds].
      split; [done|]. intros [k d] Hin. simpl. unfold get_prop.
      rewrite (own_NoDup ds k d); [done| |done].
      replace (ds.*1) with (fs.*1); [done|].
      clear -Hds. induction Hds as [|?? ?? [Hk _] _ IH]; [done|].
      rewrite !fmap_cons. by rewrite IH, Hk. }
    split.
    + intros cur' g' Hb.
      destruct (Hshape _ _ Hb) as (els & cs & -> & Hels & Hcs).
      exists e, els, (VObj cs). split_and!; try done.
      intros Hconf. destruct data as [| | | | | |ds]; try done.
      destruct (Hdata ds Hconf eq_refl) as [Hds Hget]. by rewrite (Hcs ds).
    + intros Hconf. destruct data as [| | | | | |ds]; try done.
      destruct (Hdata ds Hconf eq_refl) as [Hds Hget]. by apply (Hsucc ds).
Qed.

(** ** Round trip *)





(** What the round trip does not give back, each on a small schema: a 0
    and an empty string come back as null, an empty list and an empty
    object leave no key, line breaks are stripped, the keys come back in
    the schema's order, and a list of lists comes back as one list that
    keeps, at each index, the last value found there. *)
Lemma round_trip_limits :
  reload (VObj [("n", VNum 0)]) (VObj [("n", VNum 0)]) =
    Some (VObj [("n", VNull)]) ∧
  reload (VObj [("s", VStr "")]) (VObj [("s", VStr "")]) =
    Some (VObj [("s", VNull)]) ∧
  reload (VObj [("l", VArr [VStr ""])]) (VObj [("l", VArr [])]) =
    Some (VObj []) ∧
  reload (VObj [("o", VObj []); ("s", VStr "")])
         (VObj [("o", VObj []); ("s", VStr "x")]) =
    Some (VObj [("s", VStr "x")]) ∧
  reload (VObj [("s", VStr "")])
         (VObj [("s", VStr (String "a" (String "010" "b")))]) =
    Some (VObj [("s", VStr "ab")]) ∧
  reload (VObj [("a", VStr ""); ("b", VStr "")])
         (VObj [("b", VStr "y"); ("a", VStr "x")]) =
    Some (VObj [("a", VStr "x"); ("b", VStr "y")]) ∧
  reload (VObj [("m", VArr [VArr [VStr ""]])])
         (VObj [("m", VArr [VArr [VStr "p"; VStr "q"]; VArr [VStr "r"]])]) =
    Some (VObj [("m", VArr [VStr "q"; VStr "r"])]).
Proof. split_and!; vm_compute; reflexivity. Qed.

(** ** Loading a value into a select *)






(** ** What the builder creates for each kind of schema node *)







Lemma createItems_arr_any path current items data g :
  createItemsRecursively path current (VArr items) data g =
    let '(current, list, add_btn) := createListItem current in
    let item := default VUndefined (head items) in
    let small := is_small item in
    let fill :=
      match items with
      | [] => λ _ c _ g, Some (c, g)
      | item :: _ => λ path c data_ g, createItemsRecursively path c item data_ g
      end in
    let defaultData := default_at g path in
    let '(dName, _) := desc g path (Some "_") in
    let add_btn :=
      if String.eqb dName "" then add_btn
      else set_innerText (innerText add_btn +:+ " " +:+ dName) add_btn in
    entries ← iterate data;
    '(list, i, g) ← add_entries fill path small entries (Some (list, 0%nat, g));
    let add_btn :=
      on_element (set_onclick (AddEntry path item small defaultData i)) add_btn in
    Some (attach_list current list add_btn, g).
Proof. reflexivity. Qed.




(** ** Termination *)

Lemma addListEntry_bounded_enough fill_b fill path small k st :
  (∀ path c data_ g, fill_b path c data_ g = Some (fill path c data_ g)) →
  addListEntry_bounded fill_b path small k st =
    Some (addListEntry fill path small k st).
Proof.
  intros Hfill. destruct st as [[list i] g].
  unfold addListEntry_bounded, addListEntry.
  destruct (desc g path (Some "_")) as [dName dLong].
  destruct (createListElItem dName dLong) as [listEntryEl childDetailsEl].
  rewrite Hfill.
  by destruct (fill _ _ k g) as [[c g1]|].
Qed.

Lemma add_entries_bounded_enough fill_b fill path small entries :
  (∀ path c data_ g, fill_b path c data_ g = Some (fill path c data_ g)) →
  ∀ st,
    foldl (λ st k, st ←call st; addListEntry_bounded fill_b path small k st)
      (Some st) entries =
    Some (add_entries fill path small entries st).
Proof.
  intros Hfill. unfold add_entries.
  induction entries as [|k entries IH]; intros st; [done|].
  cbn [foldl]. destruct st as [st|]; cbn [bounded_bind mbind option_bind].
  - rewrite (addListEntry_bounded_enough _ fill); [|done]. apply IH.
  - apply IH.
Qed.

Lemma create_fields_bounded_enough calls path data fs :
  Forall (λ kv, ∀ path current data g,
            createItems_bounded calls path current kv.2 data g =
              Some (createItemsRecursively path current kv.2 data g)) fs →
  ∀ st,
    foldl (λ st kv,
             '(current, g) ←call st;
             let small := is_small kv.2 in
             let '(dName, dLong) := desc g path (Some kv.1) in
             let el := createItem (Some kv.1) dName dLong small in
             data_k ←call Some (get_opt data kv.1);
             '(el, g) ←call
               createItems_bounded calls (path ++ [PEl (key_of el)])
                 el kv.2 data_k g;
             Some (Some (appendChild current el, g)))
          (Some st) fs =
    Some ('(current, g) ← st; create_fields path fs current data g).
Proof.
  induction 1 as [|[k item_k] fs Hk _ IH]; intros st.
  - cbn [foldl]. by destruct st as [[current g]|].
  - cbn [foldl]. destruct st as [[current g]|];
      cbn [bounded_bind mbind option_bind fst snd create_fields].
    + destruct (desc g path (Some k)) as [dName dLong].
      destruct (get_opt data k) as [data_k|]; cbn [bounded_bind mbind option_bind].
      * rewrite Hk. cbn [snd].
        destruct (createItemsRecursively _ _ item_k data_k g) as [[el g1]|];
          cbn [bounded_bind mbind option_bind]; apply IH.
      * apply IH.
    + apply IH.
Qed.

Lemma depth_fields calls fs :
  (depth (VObj fs) < S calls)%nat → Forall (λ kv, (depth kv.2 < calls)%nat) fs.
Proof.
  cbn [depth]. intros H. apply Nat.succ_lt_mono in H.
  induction fs as [|kv fs IH]; [by constructor|].
  cbn [foldr] in H. constructor; [lia|]. apply IH. lia.
Qed.

Lemma createItems_bounded_enough calls : ∀ item path current data g,
  (depth item < calls)%nat →
  createItems_bounded calls path current item data g =
    Some (createItemsRecursively path current item data g).
Proof.
  induction calls as [|calls IH]; intros item path current data g Hd; [lia|].
  destruct item as [| | b | z | s | items | fs]; try done.
  - change (createItems_bounded (S calls) path current (VArr items) data g)
      with (let '(current, list, add_btn) := createListItem current in
            let item := default VUndefined (head items) in
            let small := is_small item in
            let defaultData := default_at g path in
            let '(dName, _) := desc g path (Some "_") in
            let add_btn :=
              if String.eqb dName "" then add_btn
              else set_innerText (innerText add_btn +:+ " " +:+ dName) add_btn in
            entries ←call Some (iterate data);
            '(list, i, g) ←call
              foldl (λ st k,
                       st ←call st;
                       addListEntry_bounded
                         (λ path c data_ g,
                            createItems_bounded calls path c item data_ g)
                         path small k st)
                    (Some (Some (list, 0%nat, g))) entries;
            let add_btn :=
              on_element (set_onclick (AddEntry path item small defaultData i))
                add_btn in
            Some (Some (attach_list current list add_btn, g))).
    rewrite createItems_arr_any.
    destruct (createListItem current) as [[current' list] add_btn]. cbn zeta.
    destruct (desc g path (Some "_")) as [dName dLongUnused].
    destruct (iterate data) as [entries|]; cbn [bounded_bind mbind option_bind];
      [|done].
    rewrite (add_entries_bounded_enough _
               match items with
               | [] => λ _ c _ g, Some (c, g)
               | item :: _ =>
                   λ path c data_ g, createItemsRecursively path c item data_ g
               end).
    + by destruct (add_entries _ path _ entries _) as [[[list' i'] g1]|].
    + intros path' c data_ g'. destruct items as [|item rest]; cbn [head default].
      * destruct calls; [cbn [depth] in Hd; lia|done].
      * apply IH. cbn [depth] in Hd. lia.
  - cbn [createItems_bounded]. rewrite createItems_obj.
    destruct (forallb _ fs); [|done].
    rewrite (create_fields_bounded_enough calls path data fs); [done|].
    eapply Forall_impl; [by apply depth_fields|].
    intros kv Hkv path' current' data' g'. by apply IH.
Qed.

Lemma element_at_chain : ∀ pos n above idx h,
  element_at n above idx pos = Some h →
  h.1.*2 = reverse pos ++ idx :: above.*2.
Proof.
  induction pos as [|j pos IH]; intros [s|e ch] above idx h; try done.
  - by intros [= <-].
  - cbn [element_at]. destruct (ch !! j) as [c|]; [|done].
    cbn [mbind option_bind]. intros Hh. rewrite (IH _ _ _ _ Hh).
    rewrite reverse_cons, <- app_assoc. done.
Qed.

Lemma element_at_place pos n above idx h :
  element_at n above idx pos = Some h →
  place h = reverse (above.*2) ++ idx :: pos.
Proof.
  intros Hh. unfold place. rewrite (element_at_chain _ _ _ _ _ Hh).
  by rewrite reverse_app, reverse_cons, reverse_involutive, <- app_assoc.
Qed.

Lemma fields_among_elem keyed above i0 ch h :
  h ∈ fields_among keyed above i0 ch ↔
  ∃ j c, ch !! j = Some c ∧ h ∈ fields_below keyed above (i0 + j) c.
Proof.
  revert i0. induction ch as [|c ch IH]; intros i0.
  - rewrite fields_among_nil. split; [by intros ?%elem_of_nil|].
    by intros (j & c & ? & _).
  - rewrite fields_among_cons, elem_of_app, IH. split.
    + intros [Hh|(j & c' & Hj & Hh)].
      * exists 0%nat, c. by rewrite Nat.add_0_r.
      * exists (S j), c'. split; [done|]. by rewrite Nat.add_succ_r.
    + intros ([|j] & c' & Hj & Hh).
      * left. injection Hj as <-. by rewrite Nat.add_0_r in Hh.
      * right. exists j, c'. split; [done|]. by rewrite Nat.add_succ_r in Hh.
Qed.

(** The elements the selector finds below a node are the selects and inputs
    with an element that carries [data-key] above them. *)
Lemma fields_below_spec n : ∀ keyed above idx h,
  h ∈ fields_below keyed above idx n ↔
  ∃ pos, element_at n above idx pos = Some h ∧ is_field_hit h = true ∧
         keyed || below_key n pos = true.
Proof.
  induction n as [s|e ch IH] using node_ind; intros keyed above idx h.
  - split; [by intros ?%elem_of_nil|]. by intros ([|??] & ? & _).
  - rewrite fields_below_Elem, elem_of_app, fields_among_elem. split.
    + intros [Hh|(j & c & Hj & Hh)].
      * destruct keyed; [|by apply elem_of_nil in Hh].
        destruct (is_field e) eqn:Hf; [|by apply elem_of_nil in Hh].
        apply list_elem_of_singleton in Hh as ->. by exists [].
      * rewrite Forall_forall in IH.
        apply IH in Hh as (pos & Hat & Hf & Hk);
          [|by eapply list_elem_of_lookup_2].
        exists (j :: pos). cbn [element_at below_key]. rewrite Hj.
        split_and!; [done..|]. by rewrite orb_assoc.
    + intros ([|j pos] & Hat & Hf & Hk).
      * left. injection Hat as <-. cbn [below_key] in Hk.
        rewrite orb_false_r in Hk. subst keyed.
        unfold is_field_hit in Hf. cbn [fst] in Hf. rewrite Hf.
        apply list_elem_of_singleton. done.
      * right. cbn [element_at below_key] in Hat, Hk.
        destruct (ch !! j) as [c|] eqn:Hj; [|done].
        exists j, c. split; [done|]. rewrite Forall_forall in IH.
        apply IH; [by eapply list_elem_of_lookup_2|].
        exists pos. split_and!; [done..|]. by rewrite <- orb_assoc.
Qed.

Lemma fields_below_place n keyed above idx h :
  h ∈ fields_below keyed above idx n →
  ∃ pos, place h = reverse (above.*2) ++ idx :: pos.
Proof.
  intros (pos & Hat & _)%fields_below_spec. exists pos.
  by apply (element_at_place _ n).
Qed.

Lemma fields_among_place ch keyed above i0 h :
  h ∈ fields_among keyed above i0 ch →
  ∃ j pos, place h = reverse (above.*2) ++ (i0 + j)%nat :: pos.
Proof.
  intros (j & c & _ & (pos & Hp)%fields_below_place)%fields_among_elem.
  by exists j, pos.
Qed.

Lemma fields_among_NoDup ch :
  Forall (λ c, ∀ keyed above idx,
            NoDup (place <$> fields_below keyed above idx c)) ch →
  ∀ keyed above i0, NoDup (place <$> fields_among keyed above i0 ch).
Proof.
  induction 1 as [|c ch Hc _ IH]; intros keyed above i0.
  - rewrite fields_among_nil. constructor.
  - rewrite fields_among_cons, fmap_app. apply NoDup_app. split_and!.
    + apply Hc.
    + intros p (h & -> & Hh)%list_elem_of_fmap (h' & Hp & Hh')%list_elem_of_fmap.
      apply fields_below_place in Hh as (pos & Hpos).
      apply fields_among_place in Hh' as (j & pos' & Hpos').
      rewrite Hpos, Hpos' in Hp. apply app_inv_head in Hp.
      injection Hp as Hp _. lia.
    + apply IH.
Qed.

Lemma fields_below_NoDup n : ∀ keyed above idx,
  NoDup (place <$> fields_below keyed above idx n).
Proof.
  induction n as [s|e ch IH] using node_ind; intros keyed above idx.
  - constructor.
  - rewrite fields_below_Elem, fmap_app. apply NoDup_app. split_and!.
    + destruct (keyed && is_field e); [apply NoDup_singleton|constructor].
    + intros p Hp (h' & Hp' & Hh')%list_elem_of_fmap.
      destruct (keyed && is_field e); [|by apply elem_of_nil in Hp].
      apply list_elem_of_singleton in Hp. subst p.
      apply fields_among_place in Hh' as (j & pos' & Hpos').
      rewrite Hpos' in Hp'. unfold place in Hp'. cbn [fst fmap list_fmap snd] in Hp'.
      apply (f_equal length) in Hp'.
      rewrite !length_reverse, length_app, length_reverse in Hp'.
      cbn [length] in Hp'. lia.
    + by apply fields_among_NoDup.
Qed.

(** The selector finds each select and input below a keyed element of
    [#main], and finds it at one place of its result. *)
Lemma querySelectorAll_spec main h :
  h ∈ querySelectorAll main ↔ ∃ pos, selected_at main pos = Some h.
Proof.
  destruct main as [s|e ch].
  - split; [by intros ?%elem_of_nil|]. by intros (pos & ?).
  - rewrite querySelectorAll_Elem, fields_among_elem. split.
    + intros (j & c & Hj & (pos & Hat & Hf & Hk)%fields_below_spec).
      change (0 + j)%nat with j in Hat.
      exists (j :: pos). cbn [selected_at]. rewrite Hj. cbn [mbind option_bind].
      rewrite Hat. cbn [mbind option_bind]. cbn [orb] in Hk. by rewrite Hf, Hk.
    + intros ([|j pos] & Hs); [done|]. cbn [selected_at] in Hs.
      destruct (ch !! j) as [c|] eqn:Hj; [|done]. cbn [mbind option_bind] in Hs.
      destruct (element_at c [] j pos) as [h'|] eqn:Hat; [|done].
      cbn [mbind option_bind] in Hs.
      destruct (is_field_hit h') eqn:Hf; [|done].
      destruct (below_key c pos) eqn:Hk; [|done]. injection Hs as ->.
      exists j, c. split; [done|]. apply fields_below_spec.
      change (0 + j)%nat with j. by exists pos.
Qed.

Lemma selected_at_place main pos h :
  selected_at main pos = Some h → place h = pos.
Proof.
  destruct main as [s|e ch]; [done|]. destruct pos as [|j pos]; [done|].
  cbn [selected_at]. destruct (ch !! j) as [c|]; [|done].
  cbn [mbind option_bind].
  destruct (element_at c [] j pos) as [h'|] eqn:Hat; [|done].
  cbn [mbind option_bind]. destruct (_ && _); [|done]. intros [= <-].
  by rewrite (element_at_place _ _ _ _ _ Hat).
Qed.

Lemma querySelectorAll_NoDup main : NoDup (place <$> querySelectorAll main).
Proof.
  destruct main as [s|e ch]; [constructor|].
  rewrite querySelectorAll_Elem. apply fields_among_NoDup, Forall_forall.
  intros c _ keyed above idx. apply fields_below_NoDup.
Qed.

Lemma count_previous_enough : ∀ turns before i,
  (before < turns)%nat → count_previous turns before i = Some (i + before)%nat.
Proof.
  induction turns as [|turns IH]; intros before i Hlt; [lia|].
  destruct before as [|before]; cbn [count_previous].
  - by rewrite Nat.add_0_r.
  - rewrite IH by lia. f_equal. lia.
Qed.

Lemma climb_bounded_enough inner st currentEl :
  (currentEl.2 < inner)%nat →
  climb_bounded inner st currentEl = Some (climb st currentEl).
Proof.
  intros Hlt. unfold climb_bounded, climb. destruct st as [path n].
  destruct (match dataset_key currentEl.1 with
            | Some k => _ | None => _ end) as [path' n'].
  destruct (decide (tagName currentEl.1 = LI)); [|done].
  by rewrite count_previous_enough.
Qed.

Lemma walk_up_enough inner : ∀ turns chain st,
  (length chain < turns)%nat → Forall (λ p, (p.2 < inner)%nat) chain →
  walk_up inner turns chain st = Some (foldl climb st chain).
Proof.
  induction turns as [|turns IH]; intros chain st Hlen Hidx; [lia|].
  destruct chain as [|currentEl up]; [done|].
  apply Forall_cons in Hidx as [Hhere Hup]. cbn [walk_up foldl].
  rewrite climb_bounded_enough by done. cbn [mbind option_bind].
  apply IH; [cbn [length] in Hlen; lia|done].
Qed.

Lemma size_pos n : (0 < size n)%nat.
Proof. destruct n; cbn [size]; lia. Qed.

Lemma size_child ch : ∀ j c,
  ch !! j = Some c → (size c + j ≤ foldr (λ c, Nat.add (size c)) 0 ch)%nat.
Proof.
  induction ch as [|c0 ch IH]; intros j c Hj; [done|].
  cbn [foldr]. destruct j as [|j].
  - injection Hj as ->. lia.
  - apply IH in Hj. pose proof (size_pos c0). lia.
Qed.

Lemma element_at_size : ∀ pos n above idx h,
  element_at n above idx pos = Some h →
  (length pos < size n)%nat ∧ Forall (λ i, (i < size n)%nat) pos.
Proof.
  induction pos as [|j pos IH]; intros [s|e ch] above idx h; try done.
  - intros _. split; [cbn [length size]; lia|constructor].
  - cbn [element_at]. destruct (ch !! j) as [c|] eqn:Hj; [|done].
    cbn [mbind option_bind]. intros Hh. apply IH in Hh as [Hlen Hall].
    apply size_child in Hj. cbn [size length]. split; [lia|].
    constructor; [lia|]. eapply Forall_impl; [exact Hall|].
    intros i Hi. cbn beta in Hi |- *. lia.
Qed.

Lemma querySelectorAll_bound main h :
  h ∈ querySelectorAll main →
  (length h.1 < size main)%nat ∧ Forall (λ p, (p.2 < size main)%nat) h.1.
Proof.
  intros (pos & Hs)%querySelectorAll_spec.
  destruct main as [s|e ch]; [done|]. destruct pos as [|j pos]; [done|].
  cbn [selected_at] in Hs. destruct (ch !! j) as [c|] eqn:Hj; [|done].
  cbn [mbind option_bind] in Hs.
  destruct (element_at c [] j pos) as [h'|] eqn:Hat; [|done].
  cbn [mbind option_bind] in Hs. destruct (_ && _); [|done].
  injection Hs as ->.
  pose proof (element_at_chain _ _ _ _ _ Hat) as Hch.
  apply element_at_size in Hat as [Hlen Hall]. apply size_child in Hj.
  cbn [size]. split.
  - apply (f_equal length) in Hch.
    rewrite length_fmap, length_app, length_reverse in Hch.
    simpl in Hch. unfold hit, placed in *. cbn [fst] in *. lia.
  - apply Forall_fmap with (f := snd) (P := λ i, (i < _)%nat).
    unfold hit, placed in *. rewrite Hch. apply Forall_app. split.
    + apply Forall_reverse. eapply Forall_impl; [exact Hall|].
      intros i Hi. cbn beta in Hi |- *. lia.
    + repeat constructor. lia.
Qed.

(** ** Clicks *)

Lemma inert_quiet n : inert n = true → quiet n = true.
Proof.
  induction n as [s|e ch IH] using node_ind; [done|].
  cbn [inert quiet]. intros [[_ Hh]%andb_prop Hch]%andb_prop.
  apply andb_true_intro. split; [done|].
  apply forallb_Forall. apply forallb_Forall in Hch.
  rewrite Forall_forall in IH, Hch |- *. intros c Hc. by apply IH, Hch.
Qed.

Lemma inert_all_quiet ch : forallb inert ch = true → forallb quiet ch = true.
Proof.
  intros H. apply forallb_Forall. apply forallb_Forall in H.
  eapply Forall_impl; [exact H|]. intros c. apply inert_quiet.
Qed.

Lemma quiet_passive n : quiet n = true → passive n = true.
Proof.
  destruct n as [s|e ch]; [done|]. cbn [quiet passive].
  intros [Hh Hch]%andb_prop. rewrite Hch, andb_true_r.
  by destruct (onclick e) as [[]|].
Qed.

Lemma quiet_handler : ∀ pos n h,
  quiet n = true → handler_at n pos = Some h → h = ShowPreview.
Proof.
  induction pos as [|i pos IH]; intros [s|e ch] h; try done.
  - cbn [quiet handler_at]. intros [Hh _]%andb_prop Heq.
    rewrite Heq in Hh. by destruct h.
  - cbn [quiet handler_at]. intros [_ Hch]%andb_prop.
    destruct (ch !! i) as [c|] eqn:Hi; [|done]. cbn [mbind option_bind].
    apply IH. apply forallb_Forall in Hch. rewrite Forall_forall in Hch.
    apply Hch. by eapply list_elem_of_lookup_2.
Qed.

Lemma handler_at_cons e ch i pos :
  handler_at (Elem e ch) (i :: pos) = ch !! i ≫= λ c, handler_at c pos.
Proof. done. Qed.

Lemma quiet_lookup ch i c :
  forallb quiet ch = true → ch !! i = Some c → quiet c = true.
Proof.
  intros Hch Hi. apply forallb_Forall in Hch. rewrite Forall_forall in Hch.
  apply Hch. by eapply list_elem_of_lookup_2.
Qed.

Lemma click_add_quiet ch k g :
  forallb quiet ch = true → click_add ch k g = None.
Proof.
  intros Hch. destruct k as [|k]; [done|]. cbn [click_add].
  destruct (ch !! S k) as [[s|e_btn txt]|] eqn:Hk; try done.
  destruct (ch !! k); [|done].
  apply (quiet_lookup _ _ _ Hch) in Hk. cbn [quiet] in Hk.
  apply andb_prop in Hk as [Hk _]. by destruct (onclick e_btn) as [[]|].
Qed.

(** No click does anything in an element whose children are quiet. *)
Lemma click_children_quiet : ∀ pos e ch g,
  forallb quiet ch = true → click (Elem e ch) pos g = None.
Proof.
  induction pos as [|i rest IH]; intros e ch g Hch; [done|].
  assert ((c ← ch !! i; '(c, g) ← click c rest g;
           Some (Elem e (<[i := c]> ch), g)) = None) as Hin.
  { destruct (ch !! i) as [[s|e' ch']|] eqn:Hi; try done.
    - cbn [mbind option_bind]. by destruct rest.
    - cbn [mbind option_bind]. rewrite IH; [done|].
      apply (quiet_lookup _ _ _ Hch) in Hi. cbn [quiet] in Hi.
      by apply andb_prop in Hi as [_ Hi]. }
  cbn [click]. destruct rest as [|j [|k [|? ?]]]; try exact Hin.
  - by rewrite click_add_quiet.
  - destruct (handler_at (Elem e ch) [i; j; k]) as [h|] eqn:Hh; [|exact Hin].
    rewrite handler_at_cons in Hh. destruct (ch !! i) as [c|] eqn:Hi; [|done].
    cbn [mbind option_bind] in Hh.
    apply quiet_handler in Hh as ->; [exact Hin|by eapply quiet_lookup].
Qed.

Lemma click_passive n pos g : passive n = true → click n pos g = None.
Proof.
  destruct n as [s|e ch]; [by destruct pos|]. cbn [passive].
  intros [_ Hch]%andb_prop. by apply click_children_quiet.
Qed.

(** The three ways a click acts on the children of an element: an Add
    button among them is clicked, a Delete button two levels below one of
    them is clicked, or the click is inside one of them. *)
Lemma click_inv E ch pos g n' g' :
  click (Elem E ch) pos g = Some (n', g') →
  (∃ k list e_btn txt path item small dd i list' i',
     pos = [S k] ∧ ch !! k = Some list ∧ ch !! S k = Some (Elem e_btn txt) ∧
     onclick e_btn = Some (AddEntry path item small dd i) ∧
     addListEntry (λ path c data_ g, createItemsRecursively path c item data_ g)
       path small dd (list, i, g) = Some (list', i', g') ∧
     n' = Elem E (<[S k := Elem (set_onclick (AddEntry path item small dd i') e_btn)
                            txt]> (<[k := list']> ch))) ∨
  (∃ i j k li,
     pos = [i; j; k] ∧ ch !! i = Some li ∧
     handler_at li [j; k] = Some RemoveEntry ∧
     n' = Elem E (delete i ch) ∧ g' = g) ∨
  (∃ i rest c c',
     pos = i :: rest ∧ rest ≠ [] ∧ ch !! i = Some c ∧
     click c rest g = Some (c', g') ∧ n' = Elem E (<[i := c']> ch)).
Proof.
  destruct pos as [|i rest]; [done|].
  assert ((c ← ch !! i; '(c, g) ← click c rest g;
           Some (Elem E (<[i := c]> ch), g)) = Some (n', g') →
          rest ≠ [] →
          ∃ i0 rest0 c c',
            i :: rest = i0 :: rest0 ∧ rest0 ≠ [] ∧ ch !! i0 = Some c ∧
            click c rest0 g = Some (c', g') ∧ n' = Elem E (<[i0 := c']> ch))
    as Hin.
  { intros H Hrest. destruct (ch !! i) as [c|] eqn:Hi; [|done].
    cbn [mbind option_bind] in H.
    destruct (click c rest g) as [[c' g1]|] eqn:Hc; [|done].
    injection H as <- <-. by exists i, rest, c, c'. }
  cbn [click]. destruct rest as [|j [|k [|? ?]]].
  - intros H. left. destruct i as [|k]; [done|]. cbn [click_add] in H.
    destruct (ch !! S k) as [[s|e_btn txt]|] eqn:Hk; try done.
    destruct (ch !! k) as [list|] eqn:Hl; [|done].
    destruct (onclick e_btn) as [[path item small dd i| |]|] eqn:Hh; try done.
    destruct (addListEntry _ path small dd (list, i, g))
      as [[[list' i'] g1]|] eqn:Hadd; [|done].
    injection H as <- <-.
    by exists k, list, e_btn, txt, path, item, small, dd, i, list', i'.
  - intros H. right. right. by apply Hin.
  - destruct (handler_at (Elem E ch) [i; j; k]) as [[| |]|] eqn:Hh.
    2: { intros [= <- <-]. right. left. rewrite handler_at_cons in Hh.
         destruct (ch !! i) as [li|] eqn:Hi; [|done].
         by exists i, j, k, li. }
    all: intros H; right; right; by apply Hin.
  - intros H. right. right. by apply Hin.
Qed.

Lemma shaped_obj_lookup fs : ∀ els cs i el,
  shaped (VObj fs) els (VObj cs) → els !! i = Some el →
  ∃ k s_k c_k e hd ch_k,
    fs !! i = Some (k, s_k) ∧ cs !! i = Some (k, c_k) ∧
    el = Elem e (hd :: ch_k) ∧ item_element (Some k) e ∧ inert hd = true ∧
    shaped s_k ch_k c_k.
Proof.
  induction fs as [|[k s_k] fs IH]; intros els cs i el Hsh Hi.
  - apply shaped_obj_nil in Hsh as [-> _]. done.
  - destruct (shaped_obj_inv _ _ _ Hsh) as (cs' & [= <-] & Hlen & Hkeys).
    destruct els as [|el0 els]; [done|]. destruct cs as [|[k' c_k] cs]; [done|].
    apply shaped_obj_cons in Hsh
      as (e & hd & ch_k & -> & Hk & He & Hhd & Hsk & Hrest).
    cbn [fst snd] in Hk, Hsk. subst k'. destruct i as [|i].
    + injection Hi as <-. by exists k, s_k, c_k, e, hd, ch_k.
    + by apply (IH els cs i el Hrest).
Qed.

Lemma shaped_obj_insert fs : ∀ els cs i k s_k e hd ch_k ch_k' c_k',
  shaped (VObj fs) els (VObj cs) → fs !! i = Some (k, s_k) →
  els !! i = Some (Elem e (hd :: ch_k)) → shaped s_k ch_k' c_k' →
  shaped (VObj fs) (<[i := Elem e (hd :: ch_k')]> els)
    (VObj (<[i := (k, c_k')]> cs)).
Proof.
  induction fs as [|[k0 s0] fs IH];
    intros els cs i k s_k e hd ch_k ch_k' c_k' Hsh Hf Hi Hnew; [done|].
  destruct (shaped_obj_inv _ _ _ Hsh) as (cs' & [= <-] & Hlen & Hkeys).
  destruct els as [|el0 els]; [done|]. destruct cs as [|[k' c0] cs]; [done|].
  apply shaped_obj_cons in Hsh
    as (e0 & hd0 & ch0 & -> & Hk & He & Hhd & Hsk & Hrest).
  cbn [fst snd] in Hk, Hsk. subst k'. destruct i as [|i].
  - injection Hf as -> ->. injection Hi as -> -> ->. cbn [list_insert].
    apply shaped_obj_cons. by exists e, hd, ch_k'.
  - cbn [list_insert]. apply shaped_obj_cons.
    exists e0, hd0, ch0. split_and!; try done.
    by apply (IH els cs i k s_k e hd ch_k).
Qed.

(** The nodes the builder puts below an element for a schema node are no
    Delete buttons, and have none as a child. *)
Lemma shaped_top_handler s ch c j n :
  shaped s ch c → ch !! j = Some n → handler_at n [] ≠ Some RemoveEntry.
Proof.
  destruct s as [| | b | z | str | items | fs]; try done.
  - intros (e & opts & extras & -> & _ & _ & Hh & _ & Hex & _) Hj.
    destruct j as [|j]; [injection Hj as <-; cbn [handler_at]; by rewrite Hh|].
    intros H%quiet_handler; [done|].
    apply inert_all_quiet in Hex. by eapply quiet_lookup.
  - intros (e & opts & extras & -> & _ & _ & Hh & _ & Hex & _) Hj.
    destruct j as [|j]; [injection Hj as <-; cbn [handler_at]; by rewrite Hh|].
    intros H%quiet_handler; [done|].
    apply inert_all_quiet in Hex. by eapply quiet_lookup.
  - destruct items as [|item rest]; [done|].
    intros (e_ol & lis & e_btn & txt & cs & path & small & dd & i & -> & _ &
            _ & _ & Hol & _ & Hbtn & _) Hj.
    destruct j as [|[|j]]; [| |done]; injection Hj as <-; cbn [handler_at].
    + by rewrite Hol.
    + by rewrite Hbtn.
  - intros Hsh Hj.
    destruct (shaped_obj_inv _ _ _ Hsh) as (cs & -> & _).
    destruct (shaped_obj_lookup _ _ _ _ _ Hsh Hj)
      as (k & s_k & c_k & e & hd & ch_k & _ & _ & -> & (_ & _ & Hh) & _).
    cbn [handler_at]. by rewrite Hh.
Qed.

Lemma entry_node_inv li inner :
  entry_node li inner →
  ∃ e_li e_c hd e_del txt,
    li = Elem e_li [Elem e_c ([hd; Elem e_del txt] ++ inner)] ∧
    tagName e_li = LI ∧ dataset_key e_li = None ∧ onclick e_li = None ∧
    item_element None e_c ∧ passive hd = true ∧
    passive (Elem e_del txt) = true ∧ forallb passive [hd; Elem e_del txt] = true ∧
    entry_node (Elem e_li [Elem e_c ([hd; Elem e_del txt] ++ inner)]) inner.
Proof.
  intros (e_li & e_c & hd & e_del & txt & -> & Hli & Hkey & Hh & Hc & Hhd &
          Hdel & Hrem & Htxt).
  exists e_li, e_c, hd, e_del, txt.
  assert (passive hd = true) as Hp1 by by apply quiet_passive, inert_quiet.
  assert (passive (Elem e_del txt) = true) as Hp2.
  { cbn [passive]. rewrite Hrem. by apply inert_all_quiet. }
  split_and!; try done.
  - cbn [forallb]. by rewrite Hp1, Hp2.
  - by exists e_li, e_c, hd, e_del, txt.
Qed.

Lemma quiet_child_handler e ch k :
  forallb quiet ch = true → handler_at (Elem e ch) [k] ≠ Some RemoveEntry.
Proof.
  intros Hch. rewrite handler_at_cons.
  destruct (ch !! k) as [c|] eqn:Hk; [|done]. cbn [mbind option_bind].
  intros H%quiet_handler; [done|]. by eapply quiet_lookup.
Qed.

Lemma quiet_children e ch : quiet (Elem e ch) = true → forallb quiet ch = true.
Proof. cbn [quiet]. by intros [_ ?]%andb_prop. Qed.

Lemma shaped_no_remove_below s ch c j n k :
  shaped s ch c → ch !! j = Some n → handler_at n [k] ≠ Some RemoveEntry.
Proof.
  destruct n as [str|e1 ch1]; [done|].
  destruct s as [| | b | z | str | items | fs]; try done.
  - intros (e & opts & extras & -> & _ & _ & _ & Hopts & Hex & _) Hj.
    apply quiet_child_handler. destruct j as [|j].
    + injection Hj as <- <-. by apply inert_all_quiet.
    + apply inert_all_quiet in Hex. by eapply quiet_children, quiet_lookup.
  - intros (e & opts & extras & -> & _ & _ & _ & Hopts & Hex & _) Hj.
    apply quiet_child_handler. destruct j as [|j].
    + injection Hj as <- <-. by apply inert_all_quiet.
    + apply inert_all_quiet in Hex. by eapply quiet_children, quiet_lookup.
  - destruct items as [|item rest]; [done|].
    intros (e_ol & lis & e_btn & txt & cs & path & small & dd & i & -> & _ &
            _ & _ & _ & _ & _ & Htxt & Hlis) Hj.
    destruct j as [|[|j]]; [| |done]; injection Hj as <- <-.
    + rewrite handler_at_cons. destruct (lis !! k) as [li|] eqn:Hk; [|done].
      cbn [mbind option_bind].
      destruct (Forall2_lookup_l _ _ _ _ _ Hlis Hk) as (c_i & _ & inner & Hli & _).
      destruct Hli as (e_li & e_c & hd & e_del & txt' & -> & _ & _ & Hh & _).
      cbn [handler_at]. by rewrite Hh.
    + apply quiet_child_handler. by apply inert_all_quiet.
  - intros Hsh Hj.
    destruct (shaped_obj_inv _ _ _ Hsh) as (cs & -> & _).
    destruct (shaped_obj_lookup _ _ _ _ _ Hsh Hj)
      as (k0 & s_k & c_k & e & hd & ch_k & _ & _ & [= -> ->] & _ & Hhd & Hsk).
    rewrite handler_at_cons. destruct k as [|k]; cbn [lookup list_lookup].
    + cbn [mbind option_bind]. intros H%quiet_handler; [done|].
      by apply inert_quiet.
    + change ((hd :: ch_k) !! S k) with (ch_k !! k).
      destruct (ch_k !! k) as [n2|] eqn:Hk; [|done]. cbn [mbind option_bind].
      by eapply shaped_top_handler.
Qed.

Lemma passive_no_remove_below n j k :
  passive n = true → handler_at n [j; k] ≠ Some RemoveEntry.
Proof.
  destruct n as [s|e ch]; [done|]. cbn [passive]. intros [_ Hch]%andb_prop.
  rewrite handler_at_cons. destruct (ch !! j) as [c|] eqn:Hj; [|done].
  cbn [mbind option_bind]. intros H%quiet_handler; [done|].
  by eapply quiet_lookup.
Qed.

Lemma passive_lookup pre i n :
  forallb passive pre = true → pre !! i = Some n → passive n = true.
Proof.
  intros Hpre Hi. apply forallb_Forall in Hpre. rewrite Forall_forall in Hpre.
  apply Hpre. by eapply list_elem_of_lookup_2.
Qed.

Lemma passive_not_add e txt path item small dd i :
  passive (Elem e txt) = true →
  onclick e ≠ Some (AddEntry path item small dd i).
Proof. cbn [passive]. intros [Hh _]%andb_prop Heq. by rewrite Heq in Hh. Qed.

Lemma lookup_pre pre ch i (x : node) :
  (pre ++ ch) !! i = Some x →
  pre !! i = Some x ∨ ∃ j, i = (length pre + j)%nat ∧ ch !! j = Some x.
Proof.
  intros [H|[Hle H]]%lookup_app_Some; [by left|right].
  exists (i - length pre)%nat. split; [lia|done].
Qed.

Lemma click_all_passive E ch pos g :
  forallb passive ch = true → click (Elem E ch) pos g = None.
Proof.
  intros Hch. destruct (click (Elem E ch) pos g) as [[n' g']|] eqn:Hc; [|done].
  apply click_inv in Hc as [Hadd|[Hrem|Hin]].
  - destruct Hadd as (k & list & e_btn & txt & path & item & small & dd & i &
                      list' & i' & _ & _ & Hk & Hh & _).
    apply (passive_lookup _ _ _ Hch) in Hk. by eapply passive_not_add in Hk.
  - destruct Hrem as (i & j & k & li & _ & Hi & Hh & _).
    apply (passive_lookup _ _ _ Hch) in Hi.
    by eapply passive_no_remove_below in Hi.
  - destruct Hin as (i & rest & c & c' & _ & _ & Hi & Hc & _).
    apply (passive_lookup _ _ _ Hch) in Hi. by rewrite click_passive in Hc.
Qed.

Lemma field_passive e opts extras pre :
  onclick e = None → forallb inert opts = true → forallb inert extras = true →
  forallb passive pre = true →
  forallb passive (pre ++ Elem e opts :: extras) = true.
Proof.
  intros Hh Hopts Hex Hpre. rewrite forallb_app, Hpre. cbn [forallb andb passive].
  rewrite Hh, (inert_all_quiet _ Hopts). cbn [andb].
  apply forallb_Forall. apply forallb_Forall in Hex.
  eapply Forall_impl; [exact Hex|]. intros n Hn. by apply quiet_passive, inert_quiet.
Qed.

Lemma add_entries_one fill path small dd st :
  add_entries fill path small [dd] (Some st) = addListEntry fill path small dd st.
Proof. done. Qed.

(** Clicks keep the form of a list. *)
Lemma click_keeps_list item rest :
  wf_schema item = true → click_keeps item → click_keeps (VArr (item :: rest)).
Proof.
  intros Hwf IHitem E pre ch c pos g n' g' Hpre Hsh Hclick.
  destruct Hsh as (e_ol & lis & e_btn & txt & cs & path & small & dd & i & -> &
                   -> & Hol & Hkol & Hhol & Hbtn & Hbh & Htxt & Hlis).
  apply click_inv in Hclick as [Hadd|[Hrem|Hin]].
  - destruct Hadd as (k & list & e_b & txt' & path' & item' & small' & dd' & i0 &
                      list' & i' & -> & Hk & HSk & Hh & Hadd & ->).
    apply lookup_pre in HSk as [HSk|(j & Hj & HSk)].
    { apply (passive_lookup _ _ _ Hpre) in HSk. by eapply passive_not_add in HSk. }
    destruct j as [|[|j]]; [| |done].
    { injection HSk as <- <-. by rewrite Hhol in Hh. }
    injection HSk as <- <-. rewrite Hbh in Hh. injection Hh as <- <- <- <- <-.
    assert (k = (length pre + 0)%nat) as -> by lia.
    rewrite lookup_app_r, Nat.add_0_r, Nat.sub_diag in Hk by lia.
    injection Hk as <-.
    destruct (entries_shaped item path small (build_shaped item Hwf)
                [dd] e_ol lis i g) as [Hnew _].
    rewrite <- add_entries_one in Hadd.
    destruct (Hnew _ _ _ Hadd) as (lis_new & cs_new & -> & Hnew' & _).
    replace (S (length pre + 0)) with (length pre + 1)%nat by lia.
    rewrite !insert_app_r. cbn [list_insert].
    eexists [_; _], (VArr (cs ++ cs_new)). split; [done|].
    eexists e_ol, (lis ++ lis_new), _, txt, (cs ++ cs_new), path, small, dd, i'.
    split_and!; try done. by apply Forall2_app.
  - destruct Hrem as (i0 & j & k & li & -> & Hi & Hh & -> & ->). exfalso.
    apply lookup_pre in Hi as [Hi|(j0 & Hj & Hi)].
    { apply (passive_lookup _ _ _ Hpre) in Hi.
      by eapply passive_no_remove_below in Hi. }
    destruct j0 as [|[|j0]]; [| |done]; injection Hi as <-.
    + rewrite handler_at_cons in Hh.
      destruct (lis !! j) as [li|] eqn:Hlj; [|done]. cbn [mbind option_bind] in Hh.
      destruct (Forall2_lookup_l _ _ _ _ _ Hlis Hlj) as (c_i & _ & inner & Hli & _).
      destruct Hli as (e_li & e_c & hd & e_del & txt' & -> & _ & _ & _ &
                       (_ & _ & Hhc) & _).
      rewrite handler_at_cons in Hh. destruct k as [|k]; [|done].
      cbn [lookup list_lookup mbind option_bind handler_at] in Hh.
      by rewrite Hhc in Hh.
    + rewrite handler_at_cons in Hh.
      destruct (txt !! j) as [t|] eqn:Htj; [|done]. cbn [mbind option_bind] in Hh.
      apply quiet_handler in Hh; [done|].
      apply inert_all_quiet in Htxt. by eapply quiet_lookup.
  - destruct Hin as (i0 & rest' & c0 & c0' & -> & Hrest & Hi & Hc & ->).
    apply lookup_pre in Hi as [Hi|(j0 & -> & Hi)].
    { apply (passive_lookup _ _ _ Hpre) in Hi. by rewrite click_passive in Hc. }
    destruct j0 as [|[|j0]]; [| |done]; injection Hi as <-.
    2: { rewrite click_children_quiet in Hc; [done|by apply inert_all_quiet]. }
    rewrite insert_app_r. cbn [list_insert].
    apply click_inv in Hc as [Hadd|[Hrem|Hin]].
    + destruct Hadd as (k & list & e_b & txt' & path' & item' & small' & dd' & i0 &
                        list' & i' & _ & _ & HSk & Hh & _). exfalso.
      destruct (Forall2_lookup_l _ _ _ _ _ Hlis HSk) as (c_i & _ & inner & Hli & _).
      destruct Hli as (e_li & e_c & hd & e_del & txt'' & [= <- _] & _ & _ & Hhl & _).
      by rewrite Hhl in Hh.
    + destruct Hrem as (i1 & j & k & li & _ & Hi1 & _ & -> & ->).
      eexists [_; _], (VArr (delete i1 cs)). split; [done|].
      eexists e_ol, (delete i1 lis), e_btn, txt, (delete i1 cs), path, small, dd, i.
      split_and!; try done. by apply Forall2_delete.
    + destruct Hin as (i1 & rest'' & li & li' & _ & Hrest'' & Hi1 & Hli & ->).
      destruct (Forall2_lookup_l _ _ _ _ _ Hlis Hi1)
        as (c_i & Hci & inner & Hentry & Hinner).
      destruct (entry_node_inv _ _ Hentry)
        as (e_li & e_c & hd & e_del & txt' & -> & Htag & Hkey & Hhl & Hc &
            Hp1 & Hp2 & Hp & Hentry').
      assert (∃ inner' c_i',
                li' = Elem e_li [Elem e_c ([hd; Elem e_del txt'] ++ inner')] ∧
                shaped item inner' c_i') as (inner' & c_i' & -> & Hinner').
      { apply click_inv in Hli as [Hadd|[Hrem|Hin]].
        - by destruct Hadd as (k & list & e_b & txt'' & path' & item' & small' &
                               dd' & i0 & list' & i' & _ & _ & HSk & _).
        - destruct Hrem as (i2 & j & k & li2 & _ & Hi2 & Hh & _). exfalso.
          destruct i2 as [|i2]; [|done]. injection Hi2 as <-.
          rewrite handler_at_cons in Hh.
          destruct j as [|[|j]]; cbn [app lookup list_lookup mbind option_bind] in Hh.
          + apply quiet_handler in Hh; [done|].
            destruct hd as [|e_hd ch_hd]; [done|]. cbn [passive] in Hp1.
            apply andb_prop in Hp1 as [_ Hp1].
            destruct Hentry as (? & ? & hd0 & ? & ? & [= -> -> -> -> ->] & _ & _ &
                                _ & _ & Hhd & _).
            by apply inert_quiet.
          + revert Hh. apply quiet_child_handler.
            destruct Hentry as (? & ? & hd0 & ? & ? & [= -> -> -> -> ->] & _ & _ &
                                _ & _ & _ & _ & _ & Htxt').
            by apply inert_all_quiet.
          + change ((hd :: Elem e_del txt' :: inner) !! S (S j)) with (inner !! j) in Hh.
            destruct (inner !! j) as [n1|] eqn:Hn1; [|done].
            cbn [mbind option_bind] in Hh.
            by eapply shaped_no_remove_below in Hh.
        - destruct Hin as (i2 & rest3 & c2 & c2' & _ & _ & Hi2 & Hc2 & ->).
          destruct i2 as [|i2]; [|done]. injection Hi2 as <-.
          destruct (IHitem _ _ _ _ _ _ _ _ Hp Hinner Hc2) as (inner' & c_i' & -> & Hsh').
          by exists inner', c_i'. }
      eexists [_; _], (VArr (<[i1 := c_i']> cs)). split; [done|].
      eexists e_ol, _, e_btn, txt, (<[i1 := c_i']> cs), path, small, dd, i.
      split_and!; try done. apply Forall2_insert; [done|].
      exists inner'. split; [|done].
      destruct Hentry' as (? & ? & hd0 & ? & ? & [= <- <- <- <- <-] & H).
      by eexists _, _, _, _, _.
Qed.

(** Clicks keep the form of an object. *)
Lemma click_keeps_obj fs :
  Forall (λ kv, click_keeps kv.2) fs → click_keeps (VObj fs).
Proof.
  intros IH E pre els c pos g n' g' Hpre Hsh Hclick.
  destruct (shaped_obj_inv _ _ _ Hsh) as (cs & -> & _).
  apply click_inv in Hclick as [Hadd|[Hrem|Hin]].
  - destruct Hadd as (k & list & e_b & txt' & path' & item' & small' & dd' & i0 &
                      list' & i' & _ & _ & HSk & Hh & _). exfalso.
    apply lookup_pre in HSk as [HSk|(j & Hj & HSk)].
    { apply (passive_lookup _ _ _ Hpre) in HSk. by eapply passive_not_add in HSk. }
    destruct (shaped_obj_lookup _ _ _ _ _ Hsh HSk)
      as (k0 & s_k & c_k & e & hd & ch_k & _ & _ & [= -> ->] & (_ & _ & Hhe) & _).
    by rewrite Hhe in Hh.
  - destruct Hrem as (i0 & j & k & li & _ & Hi & Hh & _). exfalso.
    apply lookup_pre in Hi as [Hi|(j0 & Hj & Hi)].
    { apply (passive_lookup _ _ _ Hpre) in Hi.
      by eapply passive_no_remove_below in Hi. }
    destruct (shaped_obj_lookup _ _ _ _ _ Hsh Hi)
      as (k0 & s_k & c_k & e & hd & ch_k & _ & _ & -> & _ & Hhd & Hsk).
    rewrite handler_at_cons in Hh. destruct j as [|j].
    + cbn [lookup list_lookup mbind option_bind] in Hh.
      apply quiet_handler in Hh; [done|by apply inert_quiet].
    + change ((hd :: ch_k) !! S j) with (ch_k !! j) in Hh.
      destruct (ch_k !! j) as [n1|] eqn:Hn1; [|done].
      cbn [mbind option_bind] in Hh. by eapply shaped_no_remove_below in Hh.
  - destruct Hin as (i0 & rest & c0 & c0' & _ & _ & Hi & Hc & ->).
    apply lookup_pre in Hi as [Hi|(j0 & -> & Hi)].
    { apply (passive_lookup _ _ _ Hpre) in Hi. by rewrite click_passive in Hc. }
    destruct (shaped_obj_lookup _ _ _ _ _ Hsh Hi)
      as (k0 & s_k & c_k & e & hd & ch_k & Hf & Hck & -> & He & Hhd & Hsk).
    rewrite Forall_forall in IH.
    assert (click_keeps s_k) as IHk
      by (apply (IH (k0, s_k)); by eapply list_elem_of_lookup_2).
    assert (forallb passive [hd] = true) as Hp.
    { cbn [forallb]. by rewrite quiet_passive by by apply inert_quiet. }
    destruct (IHk e [hd] ch_k c_k rest g c0' g' Hp Hsk Hc) as (ch_k' & c_k' & -> & Hsk').
    rewrite insert_app_r.
    eexists _, (VObj (<[j0 := (k0, c_k')]> cs)). split; [done|].
    by apply (shaped_obj_insert fs els cs j0 k0 s_k e hd ch_k).
Qed.

(** Clicks keep the form of every schema node. *)
Lemma click_keeps_schema s : wf_schema s = true → click_keeps s.
Proof.
  induction s as [| | |z|str|items IH|fs IH] using jsval_ind; intros Hwf; try done.
  - intros E pre ch c pos g n' g' Hpre
      (e & opts & extras & -> & _ & _ & Hh & Hopts & Hex & _) Hclick.
    by rewrite click_all_passive in Hclick by by apply field_passive.
  - intros E pre ch c pos g n' g' Hpre
      (e & opts & extras & -> & _ & _ & Hh & Hopts & Hex & _) Hclick.
    by rewrite click_all_passive in Hclick by by apply field_passive.
  - destruct items as [|item rest]; [done|].
    cbn [wf_schema] in Hwf. apply andb_prop in Hwf as [_ Hwf].
    apply Forall_cons_1 in IH as [IHitem _].
    apply click_keeps_list; [done|by apply IHitem].
  - apply click_keeps_obj. cbn [wf_schema] in Hwf. apply andb_prop in Hwf as [_ Hwf].
    apply forallb_Forall in Hwf. rewrite Forall_forall in IH, Hwf |- *.
    intros kv Hkv. by apply IH, Hwf.
Qed.

Lemma reachable_shaped g0 data main g fs :
  structure g0 = VObj fs → wf_schema (VObj fs) = true →
  reachable g0 data main g →
  ∃ e els c, main = Elem e els ∧ shaped (VObj fs) els c.
Proof.
  intros Hs Hwf. induction 1 as [main g Hload|main g pos main' g' _ IH Hclick].
  - unfold loadDocStructureFromObject, main_element in Hload. rewrite Hs in Hload.
    destruct (build_shaped _ Hwf [] (createElement DIV) [] data g0) as [Hb _].
    destruct (Hb _ _ Hload) as (e' & new & c & -> & _ & Hsh & _).
    by exists e', new, c.
  - destruct IH as (e & els & c & -> & Hsh).
    destruct (click_keeps_schema _ Hwf e [] els c pos g main' g' eq_refl Hsh Hclick)
      as (els' & c' & -> & Hsh').
    by exists e, els', c'.
Qed.

(** ** Dense arrays *)





(** ** The array of a list *)

















Lemma reachable_clicks g0 data poss main g :
  clicks g0 data poss = Some (main, g) → reachable g0 data main g.
Proof.
  unfold clicks. revert main g.
  induction poss as [|pos poss IH] using rev_ind; intros main g.
  - apply reachable_loaded.
  - rewrite foldl_snoc.
    destruct (foldl _ _ poss) as [[main0 g1]|]; [|done].
    cbn [mbind option_bind]. intros Hc.
    eapply reachable_click; [by apply IH|done].
Qed.




(** Where a list holds lists, the entries of an inner list all go to the
    index of the outer entry: two of them leave one element. *)
Lemma list_of_lists_entries_collapse :
  ('(main, _) ←
     clicks (bare (VObj [("m", VArr [VArr [VStr ""]])])) VUndefined
       [[0; 2]; [0; 1; 0; 0; 3]; [0; 1; 0; 0; 3]]%nat;
   out ← allInputsToConfigObject main;
   Some (length (querySelectorAll main), out)) =
  Some (2%nat, VObj [("m", VArr [VNull])]).
Proof. vm_compute. reflexivity. Qed.

(** ** Termination of the composer *)

(** In a form built for a schema whose root is an object, every select and
    input lies below a keyed item, so the selector finds it. *)
Lemma shaped_fields_selected fs e0 els c pos h :
  shaped (VObj fs) els c →
  located (Elem e0 els) pos = Some h → is_field_hit h = true →
  selected_at (Elem e0 els) pos = Some h.
Proof.
  intros Hsh Hloc Hf. destruct pos as [|j pos]; [done|].
  cbn [located selected_at] in Hloc |- *.
  destruct (els !! j) as [n0|] eqn:Hj; [|done]. cbn [mbind option_bind] in Hloc |- *.
  rewrite Hloc. cbn [mbind option_bind]. rewrite Hf. cbn [andb].
  destruct (shaped_obj_inv _ _ _ Hsh) as (cs & -> & _).
  destruct (shaped_obj_lookup _ _ _ _ _ Hsh Hj)
    as (k & s_k & c_k & e & hd & ch_k & _ & _ & -> & He & _).
  destruct pos as [|i pos].
  - injection Hloc as <-. unfold is_field_hit in Hf. cbn [fst] in Hf.
    by rewrite (item_element_not_field _ _ He) in Hf.
  - cbn [below_key]. destruct He as (_ & Hkey & _).
    unfold has_key_attr. rewrite Hkey.
    by rewrite bool_decide_eq_true_2 by done.
Qed.

(** C6: the composer terminates on every input.  The builder run with a
    bound on the calls nested in one another returns, whenever the bound
    exceeds the depth of the schema, what the structural recursion on the
    schema returns, for every configuration.  The serializer makes one pass
    over the elements the selector finds; these are the selects and inputs
    below a keyed element of the form, each found at one place of the
    result, and in a form built for a schema with an object at its root,
    and edited by clicks, they are all the selects and inputs of the form.
    The upward walk from such an element, and each count of the preceding
    siblings inside it, is over within as many turns as the form has
    nodes. *)
Theorem composer_terminates :
  (∀ item calls path current data g,
     (depth item < calls)%nat →
     createItems_bounded calls path current item data g =
       Some (createItemsRecursively path current item data g)) ∧
  (∀ main,
     allInputsToConfigObject main =
       foldl store_field (Some (VObj [])) (querySelectorAll main) ∧
     NoDup (place <$> querySelectorAll main) ∧
     (∀ h, h ∈ querySelectorAll main ↔ ∃ pos, selected_at main pos = Some h) ∧
     (∀ pos h, selected_at main pos = Some h → place h = pos)) ∧
  (∀ g0 data main g fs pos h,
     structure g0 = VObj fs → wf_schema (VObj fs) = true →
     reachable g0 data main g →
     located main pos = Some h → is_field_hit h = true →
     h ∈ querySelectorAll main) ∧
  (∀ main h turns st,
     h ∈ querySelectorAll main → (size main ≤ turns)%nat →
     walk_up turns turns h.1 st = Some (foldl climb st h.1)).
Proof.
  split_and!.
  - intros item calls path current data g Hd.
    by apply createItems_bounded_enough.
  - intros main. split_and!.
    + reflexivity.
    + apply querySelectorAll_NoDup.
    + intros h. apply querySelectorAll_spec.
    + intros pos h. apply selected_at_place.
  - intros g0 data main g fs pos h Hs Hwf Hreach Hloc Hf.
    destruct (reachable_shaped _ _ _ _ _ Hs Hwf Hreach) as (e & els & c & -> & Hsh).
    apply querySelectorAll_spec. exists pos.
    by apply (shaped_fields_selected fs e els c).
  - intros main h turns st Hh Hsize.
    apply querySelectorAll_bound in Hh as [Hlen Hidx].
    apply walk_up_enough; [unfold hit, placed in *; lia|].
    eapply Forall_impl; [exact Hidx|]. intros p Hp. cbn beta in Hp |- *. lia.
Qed.

Lemma composer_terminates_witness :
  (depth sample_schema < 4)%nat ∧
  createItems_bounded 4 [] main_element sample_schema sample_config
    (bare sample_schema) =
  Some (createItemsRecursively [] main_element sample_schema sample_config
          (bare sample_schema)).
Proof.
  split; [cbn; lia|].
  apply (proj1 composer_terminates sample_schema 4%nat). cbn. lia.
Defined.

(** * Further properties of the page *)

(** ** Expanding and collapsing *)

Lemma skeleton_toggle b n : skeleton (toggleAllDetailsElements b n) = skeleton n.
Proof.
  induction n as [s|e ch IH] using node_ind; [done|].
  cbn [toggleAllDetailsElements skeleton]. f_equal.
  - by destruct (decide (tagName e = DETAILS)).
  - rewrite <- list_fmap_compose. apply Forall_fmap_ext_1.
    eapply Forall_impl; [exact IH|]. by intros c Hc.
Qed.

Lemma toggle_toggle b b' n :
  toggleAllDetailsElements b' (toggleAllDetailsElements b n) =
    toggleAllDetailsElements b' n.
Proof.
  induction n as [s|e ch IH] using node_ind; [done|].
  cbn [toggleAllDetailsElements]. f_equal.
  - destruct (decide (tagName e = DETAILS)) as [He|He]; cbn [set_open tagName].
    + by rewrite decide_True by done.
    + by rewrite decide_False by done.
  - rewrite <- list_fmap_compose. apply Forall_fmap_ext_1.
    eapply Forall_impl; [exact IH|]. by intros c Hc.
Qed.

Lemma node_at_toggle b : ∀ pos n,
  node_at (toggleAllDetailsElements b n) pos =
    toggleAllDetailsElements b <$> node_at n pos.
Proof.
  induction pos as [|i pos IH]; intros n; [done|].
  destruct n as [s|e ch]; [done|]. cbn [toggleAllDetailsElements node_at].
  rewrite list_lookup_fmap. destruct (ch !! i) as [c|]; [|done].
  cbn [fmap option_fmap option_map mbind option_bind]. apply IH.
Qed.

(** X1: Expand all and Collapse all set the open state of every details
    element, at whatever place, touch nothing else, and the later of two
    of them wins; the configuration that the form serializes to is the
    same before and after. *)
Theorem toggle_details_keeps_configuration b main :
  (∀ pos, node_at (toggleAllDetailsElements b main) pos =
            (λ n, match n with
                  | Elem e ch =>
                      Elem (if decide (tagName e = DETAILS) then set_open b e else e)
                           (toggleAllDetailsElements b <$> ch)
                  | Text s => Text s
                  end) <$> node_at main pos) ∧
  (∀ b', toggleAllDetailsElements b' (toggleAllDetailsElements b main) =
           toggleAllDetailsElements b' main) ∧
  allInputsToConfigObject (toggleAllDetailsElements b main) =
    allInputsToConfigObject main.
Proof.
  split_and!.
  - intros pos. rewrite node_at_toggle. by destruct (node_at main pos) as [[|]|].
  - intros b'. apply toggle_toggle.
  - by rewrite <- allInputs_skeleton, skeleton_toggle, allInputs_skeleton.
Qed.

(** ** Path strings *)




(** ** The value of a select *)

Lemma last_selected_none i0 opts :
  Forall (λ o, is_selected o = false) opts → last_selected i0 opts = None.
Proof.
  intros H. revert i0. induction H as [|o opts Ho _ IH]; intros i0; [done|].
  cbn [last_selected]. by rewrite IH, Ho.
Qed.

Lemma createSelect_unlisted options selected :
  selected ∉ Some <$> options.*1 →
  select_value (settled 0 (chosen options selected)
                  (option_node selected <$> options)) =
    default "" (head options.*1).
Proof.
  intros Hsel. unfold chosen. rewrite last_selected_none.
  2: { apply Forall_fmap, Forall_forall. intros od Hod. cbn.
       rewrite option_node_selected. apply bool_decide_eq_false_2.
       intros Heq. apply Hsel. rewrite <- Heq.
       apply list_elem_of_fmap. exists od.1. split; [done|].
       apply list_elem_of_fmap. by exists od. }
  destruct options as [|od options]; [done|].
  destruct (option_node_value selected od) as (e & ch & Heq & Hv & _).
  cbn [default]. rewrite (select_value_settled 0 0 _ e ch); [done|lia| |].
  - by rewrite fmap_cons, Heq.
  - apply Forall_fmap, Forall_forall. intros ? _. apply option_node_element.
Qed.

Lemma createSelect_value_of options selected :
  value_of_select (createSelect options selected) =
    if bool_decide (selected ∈ Some <$> options.*1) then default "" selected
    else default "" (head options.*1).
Proof.
  rewrite createSelect_spec. cbn [value_of_select]. case_bool_decide as Hsel.
  - apply list_elem_of_fmap in Hsel as (d & -> & Hd).
    destruct (createSelect_value _ _ Hd) as (e & opts & Heq & _ & Hv & _).
    rewrite createSelect_spec in Heq. injection Heq as _ Heq.
    by rewrite Heq.
  - by apply createSelect_unlisted.
Qed.

(** X3: [createSelect] makes a select with one option per given option, in
    order, each with the option's value; the select's value is the
    selected value when that is one of the options, and otherwise the
    first option's value, or the empty string when there are no
    options. *)
Theorem createSelect_value_rule options selected :
  ∃ opts,
    createSelect options selected = Elem (createElement SELECT) opts ∧
    length opts = length options ∧
    (∀ i od, options !! i = Some od →
       ∃ e ch, opts !! i = Some (Elem e ch) ∧ tagName e = OPTION ∧
               value e = od.1) ∧
    value_of_select (createSelect options selected) =
      if bool_decide (selected ∈ Some <$> options.*1) then default "" selected
      else default "" (head options.*1).
Proof.
  rewrite createSelect_spec. eexists. split; [done|]. split_and!.
  - by rewrite length_settled, length_fmap.
  - intros i od Hi.
    destruct (option_node_value selected od) as (e & ch & Heq & Hv & Htag & _).
    exists (set_selected (bool_decide (i = chosen options selected)) e), ch.
    split; [|done]. unfold settled. rewrite list_lookup_imap, list_lookup_fmap, Hi.
    cbn. by rewrite Heq.
  - rewrite <- createSelect_spec. apply createSelect_value_of.
Qed.

Lemma createSelect_value_rule_witness :
  ∃ opts e ch,
    createSelect [("near", "nearest neighbours"); ("far", "")] (Some "far") =
      Elem (createElement SELECT) opts ∧
    opts !! 1%nat = Some (Elem e ch) ∧ tagName e = OPTION ∧ value e = "far".
Proof.
  destruct (createSelect_value_rule
              [("near", "nearest neighbours"); ("far", "")] (Some "far"))
    as (opts & Hsel & _ & Hopt & _).
  destruct (Hopt 1%nat ("far", "") eq_refl) as (e & ch & He & Htag & Hv).
  by exists opts, e, ch.
Defined.

(** ** The names of the downloads *)

Lemma prefix_app_same p b : String.prefix p (p +:+ b) = true.
Proof.
  induction p as [|c p IH]; [by destruct b|]. simpl.
  destruct (ascii_dec c c); [exact IH|done].
Qed.

Lemma substring_all b : String.substring 0 (String.length b) b = b.
Proof. induction b as [|c b IHb]; [done|]. simpl. by rewrite IHb. Qed.

Lemma length_append s t :
  String.length (s +:+ t) = (String.length s + String.length t)%nat.
Proof. induction s as [|c s IH]; [done|]. simpl. by rewrite IH. Qed.

Lemma substring_skip p b :
  String.substring (String.length p)
    (String.length (p +:+ b) - String.length p) (p +:+ b) = b.
Proof.
  rewrite length_append. replace (String.length p + String.length b - String.length p)%nat with (String.length b) by lia.
  induction p as [|c p IH]; simpl; [apply substring_all|exact IH].
Qed.

Lemma append_inj_r u : ∀ s t, s +:+ u = t +:+ u → s = t.
Proof.
  induction s as [|c s IH]; intros [|d t] Heq; [done| | |].
  - apply (f_equal String.length) in Heq.
    rewrite !length_append in Heq. simpl in Heq. lia.
  - apply (f_equal String.length) in Heq.
    rewrite !length_append in Heq. simpl in Heq. lia.
  - simpl in Heq. injection Heq as -> Heq. by rewrite (IH _ Heq).
Qed.

Lemma replace_here p r b :
  p ≠ "" → replace p r (p +:+ b) = r +:+ b.
Proof.
  intros Hp. destruct (p +:+ b) as [|y t] eqn:E.
  - by destruct p.
  - cbn [replace]. rewrite <- E. by rewrite prefix_app_same, substring_skip.
Qed.

(** [replace] changes the first occurrence: here one that starts with a
    character the text before it does not have. *)
Lemma replace_first c p r a b :
  all_chars (λ x, negb (Ascii.eqb x c)) a = true →
  replace (String c p) r (a +:+ String c p +:+ b) = a +:+ r +:+ b.
Proof.
  intros Ha. induction a as [|x a IH].
  - by apply (replace_here (String c p) r b).
  - cbn [all_chars] in Ha. apply andb_prop in Ha as [Hx Ha].
    apply negb_true_iff, Ascii.eqb_neq in Hx.
    simpl. destruct (ascii_dec c x) as [->|_]; [done|]. by rewrite IH.
Qed.

Lemma all_chars_impl (f g : ascii → bool) s :
  (∀ c, f c = true → g c = true) → all_chars f s = true → all_chars g s = true.
Proof.
  intros Hfg. induction s as [|c s IH]; [done|]. cbn [all_chars].
  intros [Hc Hs]%andb_prop. by rewrite (Hfg _ Hc), IH.
Qed.

Lemma rq_name stem :
  all_chars (λ c, negb (Ascii.eqb c "_" || Ascii.eqb c ".")) stem = true →
  replace ".json" ".rq" (replace "_compose" "" (stem +:+ "_compose.json")) =
    stem +:+ ".rq".
Proof.
  intros Hstem.
  change (stem +:+ "_compose.json") with (stem +:+ String "_" "compose" +:+ ".json").
  rewrite (replace_first "_" "compose" "" stem ".json").
  2: { eapply all_chars_impl; [|exact Hstem]. intros c Hc. cbn beta in Hc |- *.
       by destruct (Ascii.eqb c "_"). }
  change ("" +:+ ".json") with (String "." "json" +:+ "").
  rewrite (replace_first "." "json" ".rq" stem "").
  - done.
  - eapply all_chars_impl; [|exact Hstem]. intros c Hc. cbn beta in Hc |- *.
    destruct (Ascii.eqb c "_"); [done|]. by destruct (Ascii.eqb c ".").
Qed.

(** X4: the names of the two downloads after a compose.  With the blank
    configuration chosen they are the fixed names [compose_spatial.json]
    and [compose_spatial.rq]; with a configuration [stem_compose.json]
    chosen, the stem free of underscores and dots, the JSON download has
    the configuration's name and the query download is [stem.rq]. *)
Theorem download_names stringify net p p' :
  (run net (compose stringify p)).2 = Some p' →
  (i_inp_value p = "blank_compose.json" →
   json_dl_download (out p') = "compose_spatial.json" ∧
   rq_dl_download (out p') = "compose_spatial.rq") ∧
  (∀ stem,
     i_inp_value p = stem +:+ "_compose.json" → stem ≠ "blank" →
     all_chars (λ c, negb (Ascii.eqb c "_" || Ascii.eqb c ".")) stem = true →
     json_dl_download (out p') = stem +:+ "_compose.json" ∧
     rq_dl_download (out p') = stem +:+ ".rq" ∧
     rq_dl_innerText (out p') = "Download " +:+ stem +:+ ".rq").
Proof.
  unfold compose, generateConfig. cbn [with_out main out set_rq].
  destruct (allInputsToConfigObject (main p)) as [result|]; [|done].
  cbn [mbind option_bind lift io_bind composeQueryRequest run fst snd i_inp_value with_out out].
  destruct (net _); cbn [run snd].
  all: intros [= <-]; cbn [out with_out json_dl_download rq_dl_download rq_dl_innerText].
  all: try destruct (bool_decide _); cbn [set_rq json_dl_download status_of].
  all: try rewrite bool_decide_eq_false_2 by done; cbn [set_rq json_dl_download].
  all: split; [by intros ->|].
  all: intros stem Hname Hne Hstem; rewrite Hname.
  all: assert (String.eqb (stem +:+ "_compose.json") "blank_compose.json" = false)
      as -> by (apply String.eqb_neq; intros Heq; apply Hne;
                by apply (append_inj_r "_compose.json")).
  all: by rewrite rq_name.
Qed.

Lemma download_names_witness :
  ∃ p',
    (run toy_net (compose toy_stringify
                    (with_i_inp_value "stops_compose.json" blank_page))).2 = Some p' ∧
    json_dl_download (out p') = "stops_compose.json" ∧
    rq_dl_download (out p') = "stops.rq" ∧
    rq_dl_innerText (out p') = "Download stops.rq".
Proof.
  eexists. split; [reflexivity|].
  apply (proj2 (download_names toy_stringify toy_net
                  (with_i_inp_value "stops_compose.json" blank_page) _ eq_refl)
           "stops"); [reflexivity|done|reflexivity].
Defined.

(** ** Composing again *)

Lemma compose_out stringify net p o :
  run net (compose stringify (with_out o p)) = run net (compose stringify p).
Proof.
  unfold compose, generateConfig. cbn [with_out main out set_rq i_inp_value].
  destruct (allInputsToConfigObject (main p)) as [result|]; [|done].
  cbn [mbind option_bind lift io_bind composeQueryRequest run fst snd i_inp_value
       with_out out].
  destruct (net _); cbn [run snd status_of]; [|done].
  by destruct (bool_decide _).
Qed.

Lemma compose_page stringify net p reqs p' :
  run net (compose stringify p) = (reqs, Some p') → p' = with_out (out p') p.
Proof.
  unfold compose, generateConfig. cbn [with_out main out set_rq i_inp_value].
  destruct (allInputsToConfigObject (main p)) as [result|]; [|done].
  cbn [mbind option_bind lift io_bind composeQueryRequest run fst snd i_inp_value
       with_out out].
  destruct (net _); cbn [run snd status_of]; by intros [= <- <-].
Qed.

(** X5: a compose overwrites every field of the two output items, so what
    it leaves does not depend on what they showed before; composing a
    second time against the same network sends the same request and leaves
    the page as the first time. *)
Theorem compose_forgets_outputs stringify net p :
  (∀ o, run net (compose stringify (with_out o p)) = run net (compose stringify p)) ∧
  (∀ reqs p', run net (compose stringify p) = (reqs, Some p') →
     run net (compose stringify p') = (reqs, Some p')).
Proof.
  split; [intros o; apply compose_out|].
  intros reqs p' Hrun. rewrite (compose_page _ _ _ _ _ Hrun), compose_out.
  by rewrite <- (compose_page _ _ _ _ _ Hrun).
Qed.

Lemma compose_forgets_outputs_witness :
  ∃ reqs p',
    run toy_net (compose toy_stringify blank_page) = (reqs, Some p') ∧
    run toy_net (compose toy_stringify p') = (reqs, Some p').
Proof.
  eexists _, _. split; [reflexivity|].
  apply (proj2 (compose_forgets_outputs toy_stringify toy_net blank_page)).
  reflexivity.
Defined.

(** ** The documents while the form is built and edited *)

Lemma extends_refl g : extends g g.
Proof.
  split_and!; try done. intros k. by destruct (selects g !! k) as [[options dflt]|].
Qed.

Lemma extends_trans g1 g2 g3 : extends g1 g2 → extends g2 g3 → extends g1 g3.
Proof.
  intros (Hs1 & Hd1 & Hf1 & Hsel1) (Hs2 & Hd2 & Hf2 & Hsel2).
  split_and!; try congruence. intros k. specialize (Hsel1 k). specialize (Hsel2 k).
  destruct (selects g1 !! k) as [[o1 d1]|], (selects g2 !! k) as [[o2 d2]|],
    (selects g3 !! k) as [[o3 d3]|]; try done.
  destruct Hsel1 as [-> H1], Hsel2 as [-> H2]. split; [done|]. by etrans.
Qed.

Lemma createSelectField_extends path cur data options dflt g cur' g' :
  selects g !! pathToString path None = Some (options, dflt) →
  createSelectField path cur data options dflt g = Some (cur', g') →
  extends g g'.
Proof.
  intros Hsel. unfold createSelectField.
  destruct (truthy data); [|cbn; intros [= _ <-]; apply extends_refl].
  destruct data as [| | | |d| |]; try done.
  case_bool_decide; cbn; intros [= _ <-]; [apply extends_refl|].
  split_and!; try done. intros k. cbn [selects set_selects].
  destruct (decide (k = pathToString path None)) as [->|Hne].
  - rewrite Hsel, lookup_insert_eq. split; [done|]. by apply prefix_app_r.
  - rewrite lookup_insert_ne by done.
    by destruct (selects g !! k) as [[o1 d1]|].
Qed.

Lemma add_entries_extends fill path small entries :
  (∀ path c data_ g c' g', fill path c data_ g = Some (c', g') → extends g g') →
  ∀ list i g list' i' g',
    add_entries fill path small entries (Some (list, i, g)) = Some (list', i', g') →
    extends g g'.
Proof.
  intros Hfill. unfold add_entries.
  induction entries as [|d entries IH]; intros list i g list' i' g'.
  - cbn. intros [= _ _ <-]. apply extends_refl.
  - cbn [foldl mbind option_bind]. unfold addListEntry at 2.
    destruct (desc g path (Some "_")) as [dName dLong].
    destruct (createListElItem dName dLong) as [listEntryEl childDetailsEl].
    destruct (fill _ _ d g) as [[c g1]|] eqn:Hf; cbn [mbind option_bind].
    + intros H. apply IH in H. eapply extends_trans; [|exact H]. by eapply Hfill.
    + intros H. exfalso. clear -H. induction entries; [done|]. by apply IHentries.
Qed.

Lemma create_fields_extends path data fs :
  Forall (λ kv, ∀ path cur data g cur' g',
            createItemsRecursively path cur kv.2 data g = Some (cur', g') →
            extends g g') fs →
  ∀ cur g cur' g',
    create_fields path fs cur data g = Some (cur', g') → extends g g'.
Proof.
  induction 1 as [|[k item_k] fs Hk _ IH]; intros cur g cur' g'.
  - intros [= _ <-]. apply extends_refl.
  - cbn [create_fields]. destruct (desc g path (Some k)) as [dName dLong].
    destruct (get_opt data k) as [data_k|]; [|done]. cbn [mbind option_bind].
    destruct (createItemsRecursively _ _ item_k data_k g) as [[el g1]|] eqn:Hb;
      [|done].
    cbn [mbind option_bind]. intros H. apply IH in H.
    eapply extends_trans; [|exact H]. by eapply Hk.
Qed.

Lemma createItems_extends item : ∀ path cur data g cur' g',
  createItemsRecursively path cur item data g = Some (cur', g') → extends g g'.
Proof.
  induction item as [| | |z|s|items IH|fs IH] using jsval_ind;
    intros path cur data g cur' g'.
  1-3: intros [= _ <-]; apply extends_refl.
  - cbn [createItemsRecursively]. unfold createNumberField.
    destruct (match data with VUndefined | VNull => _ | _ => _ end); [|done].
    intros [= _ <-]. apply extends_refl.
  - cbn [createItemsRecursively].
    destruct (selects g !! pathToString path None) as [[options dflt]|] eqn:Hsel.
    + by apply createSelectField_extends.
    + unfold createTextField.
      destruct (if truthy data then _ else _); [|done].
      intros [= _ <-]. apply extends_refl.
  - rewrite createItems_arr_any.
    destruct (createListItem cur) as [[cur1 list] add_btn]. cbn zeta.
    destruct (desc g path (Some "_")) as [dName dLongUnused].
    destruct (iterate data) as [entries|]; [|done]. cbn [mbind option_bind].
    destruct (add_entries _ path _ entries _) as [[[list' i'] g1]|] eqn:Hadd;
      [|done].
    cbn [mbind option_bind]. intros [= _ <-].
    apply (add_entries_extends _ _ _ _) in Hadd; [done|].
    intros path' c data_ g2 c' g2'. destruct items as [|item rest].
    + intros [= _ <-]. apply extends_refl.
    + apply Forall_cons_1 in IH as [IHitem _]. apply IHitem.
  - rewrite createItems_obj. destruct (forallb _ fs); [|done].
    by apply create_fields_extends.
Qed.

Lemma click_extends : ∀ pos n g n' g',
  click n pos g = Some (n', g') → extends g g'.
Proof.
  induction pos as [|i pos IH]; intros [s|E ch] g n' g' Hc; try done.
  apply click_inv in Hc as [Hadd|[Hrem|Hin]].
  - destruct Hadd as (k & list & e_btn & txt & path & item & small & dd & i0 &
                      list' & i' & _ & _ & _ & _ & Hadd & _).
    rewrite <- add_entries_one in Hadd.
    apply (add_entries_extends _ _ _ _) in Hadd; [done|].
    intros path' c data_ g2 c' g2'. apply createItems_extends.
  - destruct Hrem as (? & ? & ? & ? & _ & _ & _ & _ & ->). apply extends_refl.
  - destruct Hin as (i0 & rest & c & c' & [= -> ->] & _ & _ & Hc & _).
    by eapply IH.
Qed.

(** X6: building and editing the form never changes the schema, the
    descriptions or the defaults, and of the selects document only the
    option lists, which keep their options in place and may get further
    ones at the end: no key appears or goes, no default option changes.
    This holds for one call of the builder, for a click on an Add or Delete
    button, and so for every state reached by such clicks. *)
Theorem documents_only_grow :
  (∀ path cur item data g cur' g',
     createItemsRecursively path cur item data g = Some (cur', g') →
     extends g g') ∧
  (∀ main pos g main' g', click main pos g = Some (main', g') → extends g g') ∧
  (∀ g0 data main g, reachable g0 data main g → extends g0 g).
Proof.
  split_and!.
  - intros path cur item. apply createItems_extends.
  - intros main pos. apply click_extends.
  - intros g0 data main g. induction 1 as [main g Hload|main g pos main' g' _ IH Hc].
    + by eapply createItems_extends.
    + eapply extends_trans; [exact IH|]. by eapply click_extends.
Qed.

Lemma documents_only_grow_witness :
  extends (bare sample_schema) edited_sample.2.
Proof.
  apply (proj2 (proj2 documents_only_grow) (bare sample_schema) sample_config
           edited_sample.1).
  apply (reachable_clicks _ _
           [[2; 2]; [2; 2]; [2; 1; 2; 0; 1]; [3; 2]; [3; 1; 0; 0; 1]]%nat).
  vm_compute. reflexivity.
Defined.

(** ** Adding and deleting an entry *)






(** ** Every field is serialized *)








(** ** Loading a configuration *)

(** X9: choosing a configuration sends one request, for the configuration
    of that name.  When the answer is JSON and the form can be built, the
    form is the one built from that configuration into the emptied
    [#main], whatever the form was before, the two output items are
    created afresh, and the documents are those of before with, at most,
    further options.  When the request fails or the answer is no JSON, the
    page keeps showing [Loading...] in place of the form, with the outputs
    and documents of before. *)
Theorem reload_configuration parse net name p :
  (run net (i_inp_onchange parse name p)).1 = [GET ("/" +:+ name)] ∧
  ∀ p' ok,
    (run net (i_inp_onchange parse name p)).2 = Some (p', ok) →
    i_inp_value p' = name ∧ all_configs p' = all_configs p ∧
    (ok = false →
     main p' = set_innerText "Loading..." (main p) ∧ out p' = out p ∧
     docs p' = docs p ∧
     ¬ ∃ status body data,
         net (GET ("/" +:+ name)) = Responded status body ∧
         parse body = Some data) ∧
    (ok = true →
     out p' = createOutputItems ∧ extends (docs p) (docs p') ∧
     ∃ status body data,
       net (GET ("/" +:+ name)) = Responded status body ∧
       parse body = Some data ∧
       createItemsRecursively [] (set_innerText "" (main p))
         (structure (docs p)) data (docs p) = Some (main p', docs p')).
Proof.
  unfold i_inp_onchange. cbn [run].
  destruct (net (GET ("/" +:+ name))) as [status body|err] eqn:Hnet.
  2: { cbn. split; [done|]. intros p' ok [= <- <-]. cbn.
       split; [done|]. split; [done|]. split; [|done]. intros _.
       split_and!; try done. by intros (? & ? & ? & ? & _). }
  destruct (parse body) as [data|] eqn:Hparse.
  2: { cbn. split; [done|]. intros p' ok [= <- <-]. cbn.
       split; [done|]. split; [done|]. split; [|done]. intros _.
       split_and!; try done. intros (? & ? & ? & [= <- <-] & Hp). congruence. }
  cbn. unfold load_into. cbn [main docs with_main with_i_inp_value].
  assert (set_innerText "" (set_innerText "Loading..." (main p)) =
          set_innerText "" (main p)) as -> by by destruct (main p).
  destruct (createItemsRecursively [] _ (structure (docs p)) data (docs p))
    as [[m g]|] eqn:Hb; cbn; [|by split].
  split; [done|]. intros p' ok [= <- <-]. cbn.
  split; [done|]. split; [done|]. split; [done|]. intros _.
  split_and!; [done|by eapply createItems_extends|].
  by exists status, body, data.
Qed.

Lemma reload_configuration_witness :
  ∃ p',
    (run demo_net
       (i_inp_onchange demo_parse "stops_compose.json"
          (with_docs (bare sample_schema) blank_page))).2 = Some (p', true) ∧
    i_inp_value p' = "stops_compose.json" ∧
    out p' = createOutputItems ∧
    extends (bare sample_schema) (docs p') ∧
    loadDocStructureFromObject (VObj [("name", VStr "stops")]) (bare sample_schema) =
      Some (main p', docs p').
Proof.
  eexists. split; [vm_compute; reflexivity|].
  edestruct (reload_configuration demo_parse demo_net "stops_compose.json"
               (with_docs (bare sample_schema) blank_page))
    as (_ & H).
  edestruct H as (Hval & _ & _ & Hok); [vm_compute; reflexivity|].
  destruct (Hok eq_refl) as (Hout & Hext & status & body & data & Hnet & Hparse & Hb).
  split; [exact Hval|]. split; [exact Hout|]. split; [exact Hext|].
  vm_compute in Hnet. injection Hnet as <- <-.
  vm_compute in Hparse. injection Hparse as <-. exact Hb.
Defined.

Lemma run_bind_some {A B} net (m : io A) (f : A → io B) reqs b :
  run net (io_bind m f) = (reqs, Some b) →
  ∃ reqs1 a reqs2,
    run net m = (reqs1, Some a) ∧ run net (f a) = (reqs2, Some b) ∧
    reqs = reqs1 ++ reqs2.
Proof.
  rewrite run_bind. destruct (run net m) as [reqs1 [a|]]; [|done].
  destruct (run net (f a)) as [reqs2 b'] eqn:Hf. intros [= <- ->].
  by exists reqs1, a, reqs2.
Qed.

Lemma run_lift_some {A} net (o : option A) reqs a :
  run net (lift o) = (reqs, Some a) → o = Some a ∧ reqs = [].
Proof. rewrite run_lift. by intros [= <- ->]. Qed.

Lemma loadUIConfig_page parse net p reqs p' :
  run net (loadUIConfig parse p) = (reqs, Some p') →
  main p' = main p ∧ out p' = out p ∧ i_inp_value p' = i_inp_value p.
Proof.
  unfold loadUIConfig. intros H.
  repeat (apply run_bind_some in H as (? & ? & ? & _ & H & _)).
  apply run_lift_some in H as [H _].
  repeat match type of H with
         | (?m ≫= _) = Some _ => destruct m; [cbn [mbind option_bind] in H|done]
         end.
  by injection H as <-.
Qed.



(** ** The requests of the start *)

(** X11: the start of the page sends the requests of [loadUIConfig] and no
    other: building the form, the select of the configurations and the
    output items sends none.  When a document does not arrive, or the form
    cannot be built from the default configuration, the start ends there
    and leaves no page. *)
Theorem startup_requests parse net p0 :
  (run net (startup parse p0)).1 = (run net (loadUIConfig parse p0)).1 ∧
  ((run net (loadUIConfig parse p0)).2 = None →
   (run net (startup parse p0)).2 = None) ∧
  (∀ pl, (run net (loadUIConfig parse p0)).2 = Some pl →
     main pl = main p0 ∧
     (createItemsRecursively [] (main p0) (structure (docs pl)) (current_config pl)
        (docs pl) = None →
      (run net (startup parse p0)).2 = None)).
Proof.
  unfold startup. rewrite run_bind.
  destruct (run net (loadUIConfig parse p0)) as [reqs [pl|]] eqn:Hload;
    cbn [fst snd]; [|by split_and!].
  rewrite run_bind, run_lift.
  apply loadUIConfig_page in Hload as (Hm & _ & _).
  unfold load_into. rewrite Hm.
  destruct (createItemsRecursively [] (main p0) _ _ _) as [[m g]|] eqn:Hb;
    cbn [mbind option_bind run fst snd]; rewrite ?app_nil_r.
  - split; [done|]. split; [done|]. intros ? [= <-]. split; [done|]. by rewrite Hb.
  - split; [done|]. split; [done|]. by intros ? [= <-].
Qed.

Lemma startup_requests_witness :
  (run dead_net (startup toy_parse blank_page)).2 = None ∧
  (run dead_net (startup toy_parse blank_page)).1 = [GET "/structure.json"].
Proof.
  split.
  - apply (proj1 (proj2 (startup_requests toy_parse dead_net blank_page))).
    reflexivity.
  - rewrite (proj1 (startup_requests toy_parse dead_net blank_page)). reflexivity.
Defined.

(** ** The form built without a configuration *)






